(** * mrt-photolog: the visit store and the entry pipeline of [App]

    A shallow embedding of the two [App] components of the repository (the
    first one keeps the photo inline and asks for a caption right after the
    local read; the second one uploads the photo to Cloudinary first), of
    [types.ts], and of the two platform functions the store is persisted
    with, [JSON.stringify] and [JSON.parse].

    Strings are ECMAScript strings: finite sequences of UTF-16 code units,
    here [list N].  Objects used as dictionaries ([VisitMap]) are finite maps
    ([gmap]); a property read [visitMap[code]] is an own-property lookup.
    React state is a record, one field per [useState] cell; an event handler
    is a function from state to state, and every asynchronous operation the
    handlers start (a [FileReader], the upload, the generation request) is
    an entry of the list of operations in flight, settled later, in any
    order or never, by an event of its own.

    The theme and the search have no part in the pipeline and are modelled
    beside the component's record ([Theme], [filteredLines]).  Outside the
    model: the expanded line; a [FileReader] that fails; a [localStorage]
    that refuses a write; the percentage of the progress bar, which is
    floating-point arithmetic. *)

From Stdlib Require Import NArith String Ascii List Lia.
From stdpp Require Import base option list gmap fin_maps.

Local Open Scope N_scope.
Set Warnings "-register-all".

(** ** ECMAScript strings *)

Abbreviation jsstring := (list N) (only parsing).

(** A string literal of the source, as code units. *)
Definition js (s : string) : jsstring :=
  map N_of_ascii (list_ascii_of_string s).

(** [WhiteSpace] and [LineTerminator] code units, the ones
    [String.prototype.trim] strips. *)
Definition is_trim_space (c : N) : bool :=
  ((9 <=? c) && (c <=? 13)) || (c =? 32) || (c =? 160) || (c =? 5760)
  || ((8192 <=? c) && (c <=? 8202)) || (c =? 8232) || (c =? 8233)
  || (c =? 8239) || (c =? 8287) || (c =? 12288) || (c =? 65279).

Fixpoint trimStart (s : jsstring) : jsstring :=
  match s with
  | c :: r => if is_trim_space c then trimStart r else s
  | [] => []
  end.

Definition trim (s : jsstring) : jsstring :=
  rev (trimStart (rev (trimStart s))).

(** [s.split(sep)] for a separator of one code unit. *)
Fixpoint split (sep : N) (s : jsstring) : list jsstring :=
  match s with
  | [] => [[]]
  | c :: r =>
      if c =? sep then [] :: split sep r
      else match split sep r with
           | w :: ws => (c :: w) :: ws
           | [] => [[c]]
           end
  end.

(** Truthiness of a value of type [string | undefined | null]. *)
Definition truthy (o : option jsstring) : bool :=
  match o with
  | Some (_ :: _) => true
  | _ => false
  end.

(** ** JSON values, [JSON.stringify], [JSON.parse]

    A number keeps its literal: no claim reads a number, and a double has no
    exact counterpart here.  An object keeps its members in text order; who
    reads it as a dictionary lets a later member win over an earlier one with
    the same name, as [JSON.parse] does. *)

Module JSON.

Inductive json : Type :=
| JNull
| JBool (b : bool)
| JNumber (literal : jsstring)
| JString (s : jsstring)
| JArray (elements : list json)
| JObject (members : list (jsstring * json)).

Definition hex_digit (n : N) : N := if n <? 10 then 48 + n else 87 + n.

(** [\uXXXX], lower-case digits, as [QuoteJSONString] writes it. *)
Definition unicode_escape (c : N) : jsstring :=
  [92; 117; hex_digit (c / 4096 mod 16); hex_digit (c / 256 mod 16);
   hex_digit (c / 16 mod 16); hex_digit (c mod 16)].

Definition is_high_surrogate (c : N) : bool := (55296 <=? c) && (c <=? 56319).
Definition is_low_surrogate (c : N) : bool := (56320 <=? c) && (c <=? 57343).

(** The body of [QuoteJSONString].  [paired] says that the head is the low
    half of a surrogate pair whose high half was just written: a pair goes
    out as it is, a lone surrogate as an escape. *)
Fixpoint quote_chars (paired : bool) (s : jsstring) : jsstring :=
  match s with
  | [] => []
  | c :: r =>
      if paired then c :: quote_chars false r
      else if c =? 8 then 92 :: 98 :: quote_chars false r
      else if c =? 9 then 92 :: 116 :: quote_chars false r
      else if c =? 10 then 92 :: 110 :: quote_chars false r
      else if c =? 12 then 92 :: 102 :: quote_chars false r
      else if c =? 13 then 92 :: 114 :: quote_chars false r
      else if c =? 34 then 92 :: 34 :: quote_chars false r
      else if c =? 92 then 92 :: 92 :: quote_chars false r
      else if c <? 32 then unicode_escape c ++ quote_chars false r
      else if is_high_surrogate c then
        match r with
        | d :: _ =>
            if is_low_surrogate d then c :: quote_chars true r
            else unicode_escape c ++ quote_chars false r
        | [] => unicode_escape c
        end
      else if is_low_surrogate c then unicode_escape c ++ quote_chars false r
      else c :: quote_chars false r
  end.

Definition QuoteJSONString (s : jsstring) : jsstring :=
  34 :: quote_chars false s ++ [34].

(** [JSON.stringify(v)] without indentation. *)
Fixpoint stringify (v : json) : jsstring :=
  match v with
  | JNull => js "null"
  | JBool true => js "true"
  | JBool false => js "false"
  | JNumber literal => literal
  | JString s => QuoteJSONString s
  | JArray elements =>
      91 :: (fix items (first : bool) (l : list json) : jsstring :=
               match l with
               | [] => []
               | x :: l' =>
                   (if first then [] else [44]) ++ stringify x
                   ++ items false l'
               end) true elements ++ [93]
  | JObject members =>
      123 :: (fix props (first : bool) (l : list (jsstring * json)) : jsstring :=
                match l with
                | [] => []
                | (k, x) :: l' =>
                    (if first then [] else [44]) ++ QuoteJSONString k ++ [58]
                    ++ stringify x ++ props false l'
                end) true members ++ [125]
  end.

(** JSON white space: tab, line feed, carriage return, space. *)
Definition is_json_ws (c : N) : bool :=
  (c =? 9) || (c =? 10) || (c =? 13) || (c =? 32).

Fixpoint skip_ws (s : jsstring) : jsstring :=
  match s with
  | c :: r => if is_json_ws c then skip_ws r else s
  | [] => []
  end.

Definition hex_value (c : N) : option N :=
  if (48 <=? c) && (c <=? 57) then Some (c - 48)
  else if (97 <=? c) && (c <=? 102) then Some (c - 87)
  else if (65 <=? c) && (c <=? 70) then Some (c - 55)
  else None.

Definition hex4 (h1 h2 h3 h4 : N) : option N :=
  match hex_value h1, hex_value h2, hex_value h3, hex_value h4 with
  | Some a, Some b, Some c, Some d => Some (4096 * a + 256 * b + 16 * c + d)
  | _, _, _, _ => None
  end.

(** The code unit a one-letter escape stands for. *)
Definition simple_escape (e : N) : option N :=
  if e =? 34 then Some 34
  else if e =? 92 then Some 92
  else if e =? 47 then Some 47
  else if e =? 98 then Some 8
  else if e =? 102 then Some 12
  else if e =? 110 then Some 10
  else if e =? 114 then Some 13
  else if e =? 116 then Some 9
  else None.

Definition prepend (c : N) (p : option (jsstring * jsstring))
  : option (jsstring * jsstring) :=
  match p with
  | Some (w, rest) => Some (c :: w, rest)
  | None => None
  end.

(** The characters of a string literal after its opening quote, up to and
    including the closing one; the decoded string and the rest of the text. *)
Fixpoint parse_chars (s : jsstring) : option (jsstring * jsstring) :=
  match s with
  | [] => None
  | c :: r =>
      if c =? 34 then Some ([], r)
      else if c =? 92 then
        match r with
        | [] => None
        | e :: r1 =>
            if e =? 117 then
              match r1 with
              | h1 :: h2 :: h3 :: h4 :: r2 =>
                  match hex4 h1 h2 h3 h4 with
                  | Some u => prepend u (parse_chars r2)
                  | None => None
                  end
              | _ => None
              end
            else
              match simple_escape e with
              | Some x => prepend x (parse_chars r1)
              | None => None
              end
        end
      else if c <? 32 then None
      else prepend c (parse_chars r)
  end.

Definition is_digit (c : N) : bool := (48 <=? c) && (c <=? 57).

Fixpoint take_digits (s : jsstring) : jsstring * jsstring :=
  match s with
  | c :: r =>
      if is_digit c then let '(ds, rest) := take_digits r in (c :: ds, rest)
      else ([], s)
  | [] => ([], [])
  end.

(** A number literal: an optional minus sign, then 0 or a digit from 1 to 9
    and more digits, then an optional fraction (a dot and one digit at
    least), then an optional exponent (e or E, an optional sign, and one
    digit at least).  The literal read, and the rest of the text. *)
Definition parse_sign (s : jsstring) : jsstring * jsstring :=
  match s with
  | c :: r => if c =? 45 then ([c], r) else ([], s)
  | [] => ([], s)
  end.

Definition parse_int (s : jsstring) : option (jsstring * jsstring) :=
  match s with
  | c :: r =>
      if c =? 48 then Some ([c], r)
      else if is_digit c then Some (take_digits s)
      else None
  | [] => None
  end.

Definition parse_frac (s : jsstring) : option (jsstring * jsstring) :=
  match s with
  | c :: r =>
      if c =? 46 then
        match take_digits r with
        | ([], _) => None
        | (ds, rest) => Some (c :: ds, rest)
        end
      else Some ([], s)
  | [] => Some ([], s)
  end.

Definition parse_exp (s : jsstring) : option (jsstring * jsstring) :=
  match s with
  | e :: r =>
      if (e =? 101) || (e =? 69) then
        let '(esign, r1) :=
          match r with
          | x :: r' => if (x =? 43) || (x =? 45) then ([x], r') else ([], r)
          | [] => ([], r)
          end in
        match take_digits r1 with
        | ([], _) => None
        | (ds, rest) => Some (e :: esign ++ ds, rest)
        end
      else Some ([], s)
  | [] => Some ([], s)
  end.

Definition parse_number (s : jsstring) : option (jsstring * jsstring) :=
  let '(sign, s1) := parse_sign s in
  match parse_int s1 with
  | None => None
  | Some (int, s2) =>
      match parse_frac s2 with
      | None => None
      | Some (frac, s3) =>
          match parse_exp s3 with
          | None => None
          | Some (ex, s4) => Some (sign ++ int ++ frac ++ ex, s4)
          end
      end
  end.

(** [expect word s]: the text after [word], when [s] starts with it. *)
Fixpoint expect (word s : jsstring) : option jsstring :=
  match word, s with
  | [], _ => Some s
  | w :: word', c :: r => if c =? w then expect word' r else None
  | _ :: _, [] => None
  end.

(** [starts_with c s]: the text after [c], when [s] starts with it. *)
Definition starts_with (c : N) (s : jsstring) : option jsstring :=
  match s with
  | c' :: r => if c' =? c then Some r else None
  | [] => None
  end.

(** One JSON value at the head of [s] (no leading white space), and the rest
    of the text.  [fuel] bounds the number of nested calls; [parse]
    gives enough of it for every text (lemma [JSON_parse_fuel]). *)
Fixpoint parse_value (fuel : nat) (s : jsstring) {struct fuel}
  : option (json * jsstring) :=
  match fuel with
  | O => None
  | S n =>
      match s with
      | [] => None
      | c :: r =>
          if c =? 123 then
            match starts_with 125 (skip_ws r) with
            | Some r' => Some (JObject [], r')
            | None =>
                match parse_members n (skip_ws r) with
                | Some (ms, rest) => Some (JObject ms, rest)
                | None => None
                end
            end
          else if c =? 91 then
            match starts_with 93 (skip_ws r) with
            | Some r' => Some (JArray [], r')
            | None =>
                match parse_elements n (skip_ws r) with
                | Some (xs, rest) => Some (JArray xs, rest)
                | None => None
                end
            end
          else if c =? 34 then
            match parse_chars r with
            | Some (w, rest) => Some (JString w, rest)
            | None => None
            end
          else if c =? 110 then
            match expect (js "ull") r with
            | Some rest => Some (JNull, rest)
            | None => None
            end
          else if c =? 116 then
            match expect (js "rue") r with
            | Some rest => Some (JBool true, rest)
            | None => None
            end
          else if c =? 102 then
            match expect (js "alse") r with
            | Some rest => Some (JBool false, rest)
            | None => None
            end
          else
            match parse_number s with
            | Some (literal, rest) => Some (JNumber literal, rest)
            | None => None
            end
      end
  end

(** The members of an object after [{] and white space, up to and including
    the closing brace. *)
with parse_members (fuel : nat) (s : jsstring) {struct fuel}
  : option (list (jsstring * json) * jsstring) :=
  match fuel with
  | O => None
  | S n =>
      match starts_with 34 s with
      | None => None
      | Some r =>
          match parse_chars r with
          | None => None
          | Some (k, r1) =>
              match starts_with 58 (skip_ws r1) with
              | None => None
              | Some r2 =>
                  match parse_value n (skip_ws r2) with
                  | None => None
                  | Some (x, r3) =>
                      match starts_with 125 (skip_ws r3) with
                      | Some rest => Some ([(k, x)], rest)
                      | None =>
                          match starts_with 44 (skip_ws r3) with
                          | None => None
                          | Some r4 =>
                              match parse_members n (skip_ws r4) with
                              | Some (ms, rest) => Some ((k, x) :: ms, rest)
                              | None => None
                              end
                          end
                      end
                  end
              end
          end
      end
  end

(** The elements of an array after [[] and white space, up to and including
    the closing bracket. *)
with parse_elements (fuel : nat) (s : jsstring) {struct fuel}
  : option (list json * jsstring) :=
  match fuel with
  | O => None
  | S n =>
      match parse_value n s with
      | None => None
      | Some (x, r1) =>
          match starts_with 93 (skip_ws r1) with
          | Some rest => Some ([x], rest)
          | None =>
              match starts_with 44 (skip_ws r1) with
              | None => None
              | Some r2 =>
                  match parse_elements n (skip_ws r2) with
                  | Some (xs, rest) => Some (x :: xs, rest)
                  | None => None
                  end
              end
          end
      end
  end.

(** [JSON.parse(text)]; [None] is the [SyntaxError] it throws. *)
Definition parse (text : jsstring) : option json :=
  match parse_value (2 * length text + 2) (skip_ws text) with
  | Some (v, rest) =>
      match skip_ws rest with
      | [] => Some v
      | _ :: _ => None
      end
  | None => None
  end.

End JSON.
Import JSON.

(** ** [types.ts] *)

Record Station : Type := mkStation {
  code : jsstring;
  name : jsstring
}.

Record MRTLine : Type := mkMRTLine {
  line_id : jsstring;
  line_name : jsstring;
  colorClass : jsstring;
  stations : list Station
}.

(** An optional property is [None] when the object does not have it. *)
Record VisitLog : Type := mkVisitLog {
  stationCode : jsstring;
  visitedDate : jsstring;
  imageData : option jsstring;
  caption : option jsstring;
  highlights : option jsstring;
  goodFood : option jsstring
}.

Abbreviation VisitMap := (gmap jsstring VisitLog) (only parsing).

#[global] Instance Station_eq_dec : EqDecision Station.
Proof. solve_decision. Defined.

#[global] Instance MRTLine_eq_dec : EqDecision MRTLine.
Proof. solve_decision. Defined.

#[global] Instance VisitLog_eq_dec : EqDecision VisitLog.
Proof. solve_decision. Defined.

(** [{ ...prev, visitedDate: v }] and its siblings. *)
Definition with_visitedDate (v : jsstring) (d : VisitLog) : VisitLog :=
  mkVisitLog (stationCode d) v (imageData d) (caption d) (highlights d)
    (goodFood d).

Definition with_imageData (v : jsstring) (d : VisitLog) : VisitLog :=
  mkVisitLog (stationCode d) (visitedDate d) (Some v) (caption d)
    (highlights d) (goodFood d).

Definition with_caption (v : jsstring) (d : VisitLog) : VisitLog :=
  mkVisitLog (stationCode d) (visitedDate d) (imageData d) (Some v)
    (highlights d) (goodFood d).

Definition with_highlights (v : jsstring) (d : VisitLog) : VisitLog :=
  mkVisitLog (stationCode d) (visitedDate d) (imageData d) (caption d)
    (Some v) (goodFood d).

Definition with_goodFood (v : jsstring) (d : VisitLog) : VisitLog :=
  mkVisitLog (stationCode d) (visitedDate d) (imageData d) (caption d)
    (highlights d) (Some v).

(** ** A [VisitMap] as a JSON value, and back

    [JSON.stringify] is applied to a [VisitMap] and the result of
    [JSON.parse] is used as one without any check.  [VisitMap_to_json] is the
    value the first sees; [as_VisitMap] says which values the second may
    return for the component's typing to be true. *)

Definition optional (k : jsstring) (o : option jsstring)
  : list (jsstring * json) :=
  match o with
  | Some v => [(k, JString v)]
  | None => []
  end.

Definition VisitLog_to_json (d : VisitLog) : json :=
  JObject ((js "stationCode", JString (stationCode d))
           :: (js "visitedDate", JString (visitedDate d))
           :: optional (js "imageData") (imageData d)
           ++ optional (js "caption") (caption d)
           ++ optional (js "highlights") (highlights d)
           ++ optional (js "goodFood") (goodFood d)).

(** The engine writes the members of an object in the order in which its
    properties were created; here they come in the order of the fields and
    of [map_to_list].  [JSON.parse] rebuilds the same object from either
    order. *)
Definition VisitMap_to_json (m : VisitMap) : json :=
  JObject ((fun kd => (kd.1, VisitLog_to_json kd.2)) <$> map_to_list m).

(** The value of property [k] of a parsed object: the last member of that
    name. *)
Fixpoint member (k : jsstring) (ms : list (jsstring * json)) : option json :=
  match ms with
  | [] => None
  | (k', x) :: r =>
      match member k r with
      | Some y => Some y
      | None => if bool_decide (k' = k) then Some x else None
      end
  end.

Definition string_member (k : jsstring) (ms : list (jsstring * json))
  : option jsstring :=
  match member k ms with
  | Some (JString s) => Some s
  | _ => None
  end.

Definition VisitLog_keys : list jsstring :=
  [js "stationCode"; js "visitedDate"; js "imageData"; js "caption";
   js "highlights"; js "goodFood"].

Definition is_VisitLog_member (kx : jsstring * json) : bool :=
  bool_decide (kx.1 ∈ VisitLog_keys)
  && match kx.2 with JString _ => true | _ => false end.

Definition as_VisitLog (v : json) : option VisitLog :=
  match v with
  | JObject ms =>
      if forallb is_VisitLog_member ms then
        match string_member (js "stationCode") ms,
              string_member (js "visitedDate") ms with
        | Some c, Some d =>
            Some (mkVisitLog c d
                    (string_member (js "imageData") ms)
                    (string_member (js "caption") ms)
                    (string_member (js "highlights") ms)
                    (string_member (js "goodFood") ms))
        | _, _ => None
        end
      else None
  | _ => None
  end.

Fixpoint members_to_VisitMap (ms : list (jsstring * json)) (acc : VisitMap)
  : option VisitMap :=
  match ms with
  | [] => Some acc
  | (k, x) :: r =>
      match as_VisitLog x with
      | Some d => members_to_VisitMap r (<[k := d]> acc)
      | None => None
      end
  end.

Definition as_VisitMap (v : json) : option VisitMap :=
  match v with
  | JObject ms => members_to_VisitMap ms ∅
  | _ => None
  end.

(** ** The store: load, commit, remove, progress *)

(** How a block of statements ends: normally, with a value, or by an
    exception. *)
Inductive Completion (A : Type) : Type :=
| Returns (a : A)
| Throws.
Arguments Returns {A} a.
Arguments Throws {A}.

(** [try { body } catch (e) { handler }]. *)
Definition try_catch {A : Type} (body handler : Completion A) : Completion A :=
  match body with
  | Returns a => Returns a
  | Throws => handler
  end.

(** [JSON.parse(text)] as a statement: it throws a [SyntaxError] on a text
    that is not JSON. *)
Definition JSON_parse_stmt (text : jsstring) : Completion json :=
  match JSON.parse text with
  | Some v => Returns v
  | None => Throws
  end.

(** The data part of the mount effect, with the value [visitMap] holds once
    it has run.  [savedData] is the stored item, [None] for the [null] that
    [getItem] returns when there is none.  The state starts as [{}] and is
    set only when the item is truthy and parses; the handler logs the
    exception and leaves the state as it is. *)
Definition load_effect (savedData : option jsstring) : Completion json :=
  try_catch
    (if truthy savedData then JSON_parse_stmt (default [] savedData)
     else Returns (JObject []))
    (Returns (JObject [])).

(** The store after the mount effect. *)
Definition load (savedData : option jsstring) : json :=
  if truthy savedData then
    match JSON.parse (default [] savedData) with
    | Some v => v
    | None => JObject []
    end
  else JObject [].

(** [{ ...visitMap, [record.stationCode]: record }]. *)
Definition commit (record : VisitLog) (visitMap : VisitMap) : VisitMap :=
  <[stationCode record := record]> visitMap.

(** [const newMap = { ...visitMap }; delete newMap[c]]. *)
Definition remove (c : jsstring) (visitMap : VisitMap) : VisitMap :=
  delete c visitMap.

(** [JSON.stringify(newMap)], the text written to [localStorage]. *)
Definition serialize (visitMap : VisitMap) : jsstring :=
  JSON.stringify (VisitMap_to_json visitMap).

(** [MRT_LINES.reduce((sum, line) => sum + line.stations.length, 0)]. *)
Definition totalStations (lines : list MRTLine) : nat :=
  fold_left (fun sum line => (sum + length (stations line))%nat) lines 0%nat.

(** [Object.keys(visitMap).length]. *)
Definition totalVisited (visitMap : VisitMap) : nat := size visitMap.

(** [line.stations.filter(s => visitMap[s.code]).length], the count of the
    line headers, with the read [visitMap[s.code]] taken as the own entry of
    the store.  [visitedCount] below takes the read as the page does it,
    with what the store object inherits; the two agree on a catalog with
    [plain_codes]. *)
Definition lineVisited (visitMap : VisitMap) (line : MRTLine) : nat :=
  length (filter (fun s => is_Some (visitMap !! code s)) (stations line)).

(** The station codes of the catalog. *)
Definition catalog_codes (lines : list MRTLine) : list jsstring :=
  concat ((fun line => code <$> stations line) <$> lines).

(** The count the specification words: the store keys that are the code of
    a station of the catalog. *)
Definition keys_in_catalog (visitMap : VisitMap) (lines : list MRTLine)
  : nat :=
  length (filter (fun k => k ∈ catalog_codes lines)
            (map_to_list visitMap).*1).

(** ** The component *)

(** The two [App] components of the repository. *)
Inductive Version : Type :=
| Inline      (* the photo is kept as a data URL; no upload *)
| Cloudinary. (* the photo is uploaded with [uploadImage] *)

(** What the module reads from its surroundings: the two places an API key
    may come from, and [MRT_LINES] of [./constants]. *)
Record Env : Type := mkEnv {
  process_env_API_KEY : option jsstring;
  VITE_GOOGLE_API_KEY : option jsstring;
  MRT_LINES : list MRTLine
}.

Definition getApiKey (ver : Version) (env : Env) : option jsstring :=
  match ver with
  | Inline =>
      if truthy (process_env_API_KEY env) then process_env_API_KEY env
      else VITE_GOOGLE_API_KEY env
  | Cloudinary => VITE_GOOGLE_API_KEY env
  end.

(** A selected file: its MIME type and its content in base 64. *)
Record File : Type := mkFile {
  file_type : jsstring;
  file_base64 : jsstring
}.

(** [reader.result] after [reader.readAsDataURL(file)]. *)
Definition readAsDataURL (file : File) : jsstring :=
  js "data:" ++ file_type file ++ js ";base64," ++ file_base64 file.

(** The argument of [ai.models.generateContent]. *)
Record Request : Type := mkRequest {
  model : jsstring;
  inline_mimeType : jsstring;
  inline_data : option jsstring;
  text : jsstring
}.

(** [selectedStationData?.station.name] inside a template literal. *)
Definition station_name (sel : option (Station * MRTLine)) : jsstring :=
  match sel with
  | Some (station, _) => name station
  | None => js "undefined"
  end.

Definition caption_request (file : File) (sel : option (Station * MRTLine))
  : Request :=
  mkRequest (js "gemini-2.5-flash") (file_type file)
    (nth_error (split 44 (readAsDataURL file)) 1)
    (js "Write a poetic, 1-sentence gratitude caption about this scene at "
     ++ station_name sel ++ js " MRT station.").

(** An asynchronous operation in flight.  Each keeps what its continuation
    closed over: the file, and [selectedStationData] of the render in which
    [handleImageUpload] ran. *)
Inductive Task : Type :=
| ReaderOnloadend (file : File) (sel : option (Station * MRTLine))
    (* [Inline]: the reader of [handleImageUpload] *)
| ReaderOnload (file : File)
    (* [Cloudinary]: the preview reader of [handleImageUpload] *)
| UploadImage (file : File) (sel : option (Station * MRTLine))
    (* [Cloudinary]: [await uploadImage(file)] *)
| CaptionReader (file : File) (sel : option (Station * MRTLine))
    (* [Cloudinary]: the reader of [generateCaption] *)
| GenerateContent (file : File) (request : Request).
    (* [await ai.models.generateContent(...)] *)

(** How an operation ends.  [Rejected] stands for every exception between
    the request and the state update that follows it. *)
Inductive Outcome : Type :=
| Loaded                        (* a reader has read the file *)
| Fulfilled (value : jsstring)  (* the URL, or [response.text] *)
| Rejected.

(** What the component lets out besides its state. *)
Inductive Output : Type :=
| ConsoleError (message : jsstring)
| Alert (message : jsstring)
| UnhandledRejection.

(** The state cells of [App] that the store and the pipeline use, the item
    ['sg_rail_journey_visits'] of [localStorage], the operations in flight
    and the output so far.  [isGeneratingCaption] is [isLoadingCaption] in
    the first component. *)
Record App : Type := mkApp {
  visitMap : VisitMap;
  selectedStationData : option (Station * MRTLine);
  isModalOpen : bool;
  isUploading : bool;
  isGeneratingCaption : bool;
  tempVisit : option VisitLog;
  localStorage : option jsstring;
  inFlight : list Task;
  output : list Output
}.

Definition setVisitMap (m : VisitMap) (st : App) : App :=
  mkApp m (selectedStationData st) (isModalOpen st) (isUploading st)
    (isGeneratingCaption st) (tempVisit st) (localStorage st) (inFlight st)
    (output st).

Definition setSelectedStationData (sel : option (Station * MRTLine))
  (st : App) : App :=
  mkApp (visitMap st) sel (isModalOpen st) (isUploading st)
    (isGeneratingCaption st) (tempVisit st) (localStorage st) (inFlight st)
    (output st).

Definition setIsModalOpen (b : bool) (st : App) : App :=
  mkApp (visitMap st) (selectedStationData st) b (isUploading st)
    (isGeneratingCaption st) (tempVisit st) (localStorage st) (inFlight st)
    (output st).

Definition setIsUploading (b : bool) (st : App) : App :=
  mkApp (visitMap st) (selectedStationData st) (isModalOpen st) b
    (isGeneratingCaption st) (tempVisit st) (localStorage st) (inFlight st)
    (output st).

Definition setIsGeneratingCaption (b : bool) (st : App) : App :=
  mkApp (visitMap st) (selectedStationData st) (isModalOpen st)
    (isUploading st) b (tempVisit st) (localStorage st) (inFlight st)
    (output st).

(** [setTempVisit(f)] with an updater function [f]. *)
Definition setTempVisit (f : option VisitLog -> option VisitLog) (st : App)
  : App :=
  mkApp (visitMap st) (selectedStationData st) (isModalOpen st)
    (isUploading st) (isGeneratingCaption st) (f (tempVisit st))
    (localStorage st) (inFlight st) (output st).

(** [localStorage.setItem('sg_rail_journey_visits', text)], when the storage
    takes the text.  The call that throws is in [saveEntry_within] and
    [deleteEntry_within] below. *)
Definition setItem (text : jsstring) (st : App) : App :=
  mkApp (visitMap st) (selectedStationData st) (isModalOpen st)
    (isUploading st) (isGeneratingCaption st) (tempVisit st) (Some text)
    (inFlight st) (output st).

Definition start (t : Task) (st : App) : App :=
  mkApp (visitMap st) (selectedStationData st) (isModalOpen st)
    (isUploading st) (isGeneratingCaption st) (tempVisit st)
    (localStorage st) (inFlight st ++ [t]) (output st).

Definition finish (i : nat) (st : App) : App :=
  mkApp (visitMap st) (selectedStationData st) (isModalOpen st)
    (isUploading st) (isGeneratingCaption st) (tempVisit st)
    (localStorage st) (delete i (inFlight st)) (output st).

Definition emit (o : Output) (st : App) : App :=
  mkApp (visitMap st) (selectedStationData st) (isModalOpen st)
    (isUploading st) (isGeneratingCaption st) (tempVisit st)
    (localStorage st) (inFlight st) (output st ++ [o]).

(** [prev => prev ? f(prev) : null]. *)
Definition patch (f : VisitLog -> VisitLog) (prev : option VisitLog)
  : option VisitLog :=
  match prev with
  | Some d => Some (f d)
  | None => None
  end.

(** The component after its mount effect, over a store [m] read from the
    item [savedData]. *)
Definition mounted (m : VisitMap) (savedData : option jsstring) : App :=
  mkApp m None false false false None savedData [] [].

(** The component after its mount effect; [None] when the stored item parses
    to a value that is not a [VisitMap], which the component would hold all
    the same. *)
Definition mount (savedData : option jsstring) : option App :=
  match as_VisitMap (load savedData) with
  | Some m => Some (mounted m savedData)
  | None => None
  end.

(** *** Handlers *)

(** [existing ? { ...existing } : { stationCode, visitedDate }]; [today] is
    [new Date().toISOString().split('T')[0]].  [existing] is read as the own
    entry of the store: this is the handler at a station whose code is no
    name of a property of [Object.prototype].  At such a name the page finds
    the inherited value, and its copy is a draft with no field at all, which
    [VisitLog] does not have; [get_property] and [plain_codes] below tell the
    two cases apart. *)
Definition handleStationClick (station : Station) (line : MRTLine)
  (today : jsstring) (st : App) : App :=
  let existing := visitMap st !! code station in
  setIsModalOpen true
    (setTempVisit
       (fun _ => Some (match existing with
                       | Some d => d
                       | None => mkVisitLog (code station) today None None
                                   None None
                       end))
       (setSelectedStationData (Some (station, line)) st)).

(** [saveEntry] and [deleteEntry] are the same in both components. *)
Definition saveEntry (st : App) : App :=
  match tempVisit st with
  | None => st
  | Some d =>
      let newMap := commit d (visitMap st) in
      setIsModalOpen false (setItem (serialize newMap) (setVisitMap newMap st))
  end.

Definition deleteEntry (st : App) : App :=
  match selectedStationData st with
  | None => st
  | Some (station, _) =>
      let newMap := remove (code station) (visitMap st) in
      setIsModalOpen false (setItem (serialize newMap) (setVisitMap newMap st))
  end.

(** [generateCaption(file)] of the second component, up to the start of its
    reader. *)
Definition generateCaption (env : Env) (file : File)
  (sel : option (Station * MRTLine)) (st : App) : App :=
  if truthy (getApiKey Cloudinary env) then
    start (CaptionReader file sel) (setIsGeneratingCaption true st)
  else st.

(** [handleImageUpload(e)], up to its first suspension; [file] is
    [e.target.files?.[0]]. *)
Definition handleImageUpload (ver : Version) (file : option File) (st : App)
  : App :=
  match file, tempVisit st with
  | Some f, Some _ =>
      match ver with
      | Inline => start (ReaderOnloadend f (selectedStationData st)) st
      | Cloudinary =>
          start (UploadImage f (selectedStationData st))
            (setIsUploading true (start (ReaderOnload f) st))
      end
  | _, _ => st
  end.

(** The continuation of operation [t] when it ends with [o]; [None] when
    [t] cannot end so. *)
Definition continue (ver : Version) (env : Env) (t : Task) (o : Outcome)
  (st : App) : option App :=
  match ver, t, o with
  | Inline, ReaderOnloadend file sel, Loaded =>
      let st1 := setTempVisit (patch (with_imageData (readAsDataURL file))) st in
      Some (if truthy (getApiKey Inline env) then
              start (GenerateContent file (caption_request file sel))
                (setIsGeneratingCaption true st1)
            else st1)
  | Inline, GenerateContent _ _, Fulfilled response_text =>
      Some (setIsGeneratingCaption false
              (setTempVisit (patch (with_caption (trim response_text))) st))
  | Inline, GenerateContent _ _, Rejected =>
      Some (setIsGeneratingCaption false
              (emit (ConsoleError (js "AI Error:")) st))
  | Cloudinary, ReaderOnload file, Loaded =>
      Some (setTempVisit (patch (with_imageData (readAsDataURL file))) st)
  | Cloudinary, UploadImage file sel, Fulfilled cloudUrl =>
      Some (setIsUploading false
              (generateCaption env file sel
                 (setTempVisit (patch (with_imageData cloudUrl)) st)))
  | Cloudinary, UploadImage _ _, Rejected =>
      Some (setIsUploading false
              (emit (Alert (js "Failed to upload image to cloud. Please try again."))
                 (emit (ConsoleError (js "Upload failed")) st)))
  | Cloudinary, CaptionReader file sel, Loaded =>
      Some (start (GenerateContent file (caption_request file sel)) st)
  | Cloudinary, GenerateContent _ _, Fulfilled response_text =>
      Some (setIsGeneratingCaption false
              (setTempVisit (patch (with_caption (trim response_text))) st))
  | Cloudinary, GenerateContent _ _, Rejected =>
      Some (emit UnhandledRejection st)
  | _, _, _ => None
  end.

(** *** Events *)

Inductive Event : Type :=
| StationClick (station : Station) (line : MRTLine) (today : jsstring)
| CloseModal
| ChangeDate (value : jsstring)
| ChangeCaption (value : jsstring)
| ChangeHighlights (value : jsstring)
| ChangeGoodFood (value : jsstring)
| ChangeFile (file : option File)
| ClickSave
| ClickClear
| Settle (i : nat) (o : Outcome).

(** The modal, with the form and its buttons, is rendered. *)
Definition modal_shown (st : App) : bool :=
  isModalOpen st && bool_decide (is_Some (selectedStationData st)).

(** A bubble is rendered for each station of each line of [MRT_LINES]; the
    first component renders the lines through the search filter, which keeps
    a line's [id], [name] and [colorClass] and a part of its stations. *)
Definition bubble_shown (env : Env) (station : Station) (line : MRTLine)
  : bool :=
  bool_decide (station ∈ stations line)
  && existsb (fun l =>
                bool_decide (line_id l = line_id line)
                && bool_decide (line_name l = line_name line)
                && bool_decide (colorClass l = colorClass line)
                && bool_decide (stations line ⊆ stations l))
       (MRT_LINES env).

(** [disabled={isUploading}] on the save button of the second component. *)
Definition save_disabled (ver : Version) (st : App) : bool :=
  match ver with
  | Inline => false
  | Cloudinary => isUploading st
  end.

Definition guard (b : bool) (st : App) : option App :=
  if b then Some st else None.

(** One event; [None] when the page does not offer it in [st]. *)
Definition step (ver : Version) (env : Env) (st : App) (e : Event)
  : option App :=
  match e with
  | StationClick station line today =>
      guard (bubble_shown env station line)
        (handleStationClick station line today st)
  | CloseModal => guard (modal_shown st) (setIsModalOpen false st)
  | ChangeDate v =>
      guard (modal_shown st) (setTempVisit (patch (with_visitedDate v)) st)
  | ChangeCaption v =>
      guard (modal_shown st) (setTempVisit (patch (with_caption v)) st)
  | ChangeHighlights v =>
      guard (modal_shown st) (setTempVisit (patch (with_highlights v)) st)
  | ChangeGoodFood v =>
      guard (modal_shown st) (setTempVisit (patch (with_goodFood v)) st)
  | ChangeFile file =>
      guard (modal_shown st) (handleImageUpload ver file st)
  | ClickSave =>
      guard (modal_shown st && negb (save_disabled ver st)) (saveEntry st)
  | ClickClear => guard (modal_shown st) (deleteEntry st)
  | Settle i o =>
      match inFlight st !! i with
      | Some t => continue ver env t o (finish i st)
      | None => None
      end
  end.

(** A sequence of events, from left to right. *)
Fixpoint run (ver : Version) (env : Env) (st : App) (es : list Event)
  : option App :=
  match es with
  | [] => Some st
  | e :: es' =>
      match step ver env st e with
      | Some st' => run ver env st' es'
      | None => None
      end
  end.

(** The states the component reaches from an empty store: there was no
    stored item, or none that could be read. *)
Definition reachable (ver : Version) (env : Env) (st : App) : Prop :=
  exists savedData es, run ver env (mounted ∅ savedData) es = Some st.

(** ** Sample data, for the examples *)

Definition EW18 : Station := mkStation (js "EW18") (js "Redhill").
Definition NS1 : Station := mkStation (js "NS1") (js "Jurong East").

Definition EWL : MRTLine :=
  mkMRTLine (js "EWL") (js "East West Line") (js "bg-green-600") [EW18].
Definition NSL : MRTLine :=
  mkMRTLine (js "NSL") (js "North South Line") (js "bg-red-600") [NS1].

(** Two lines, and an API key or none. *)
Definition sample_env (key : option jsstring) : Env :=
  mkEnv None key [EWL; NSL].

Definition photo : File := mkFile (js "image/png") (js "iVBORw0KGgo=").

Definition sample_url : jsstring :=
  js "https://res.cloudinary.com/dkzcaidam/image/upload/v1/redhill.png".

(** A JSON text, written with an apostrophe for each double quote. *)
Definition json_text (s : string) : jsstring :=
  map (fun c => if c =? 39 then 34 else c) (js s).

Definition sample_record : VisitLog :=
  mkVisitLog (js "EW18") (js "2024-05-01") None None None None.




(** ** Measures and shapes of JSON values, for the round trip *)

(** The members of an object and the elements of an array as
    [JSON.stringify] writes them, [first] telling whether a comma is due. *)
Definition stringify_members : bool -> list (jsstring * json) -> jsstring :=
  fix props (first : bool) (l : list (jsstring * json)) : jsstring :=
    match l with
    | [] => []
    | (k, x) :: l' =>
        (if first then [] else [44]) ++ QuoteJSONString k ++ [58]
        ++ JSON.stringify x ++ props false l'
    end.

Definition stringify_elements : bool -> list json -> jsstring :=
  fix items (first : bool) (l : list json) : jsstring :=
    match l with
    | [] => []
    | x :: l' =>
        (if first then [] else [44]) ++ JSON.stringify x ++ items false l'
    end.

(** A bound on the nesting of calls [parse_value] needs for a value. *)
Fixpoint json_size (v : json) : nat :=
  match v with
  | JArray elements =>
      S ((fix sizes (l : list json) : nat :=
            match l with
            | [] => O
            | x :: l' => S (json_size x + sizes l')
            end) elements)
  | JObject members =>
      S ((fix sizes (l : list (jsstring * json)) : nat :=
            match l with
            | [] => O
            | (_, x) :: l' => S (json_size x + sizes l')
            end) members)
  | _ => 1%nat
  end.

Definition size_elements : list json -> nat :=
  fix sizes (l : list json) : nat :=
    match l with
    | [] => O
    | x :: l' => S (json_size x + sizes l')
    end.

Definition size_members : list (jsstring * json) -> nat :=
  fix sizes (l : list (jsstring * json)) : nat :=
    match l with
    | [] => O
    | (_, x) :: l' => S (json_size x + sizes l')
    end.

(** Values without a number anywhere: what [JSON.stringify] makes of
    strings, booleans, [null], and arrays and objects of them. *)
Fixpoint number_free (v : json) : bool :=
  match v with
  | JNumber _ => false
  | JArray elements =>
      (fix all (l : list json) : bool :=
         match l with
         | [] => true
         | x :: l' => number_free x && all l'
         end) elements
  | JObject members =>
      (fix all (l : list (jsstring * json)) : bool :=
         match l with
         | [] => true
         | (_, x) :: l' => number_free x && all l'
         end) members
  | _ => true
  end.

Definition number_free_elements : list json -> bool :=
  fix all (l : list json) : bool :=
    match l with
    | [] => true
    | x :: l' => number_free x && all l'
    end.

Definition number_free_members : list (jsstring * json) -> bool :=
  fix all (l : list (jsstring * json)) : bool :=
    match l with
    | [] => true
    | (_, x) :: l' => number_free x && all l'
    end.

(** ** Invariants of the component *)

(** Every record is stored under its own code, and the draft is a record of
    the selected station. *)
Definition keyed (st : App) : Prop :=
  (forall c d, visitMap st !! c = Some d -> stationCode d = c)
  /\ (forall d, tempVisit st = Some d ->
        exists station line,
          selectedStationData st = Some (station, line)
          /\ stationCode d = code station).

(** The keys of the store and the selected station are stations of the
    catalog. *)
Definition within_catalog (env : Env) (st : App) : Prop :=
  (forall k, is_Some (visitMap st !! k) -> k ∈ catalog_codes (MRT_LINES env))
  /\ (forall station line, selectedStationData st = Some (station, line) ->
        code station ∈ catalog_codes (MRT_LINES env)).


(** The first character of a written value is none of white space, a
    closing bracket or brace, or a comma. *)
Definition opens_value (c : N) : Prop :=
  c = 123 \/ c = 91 \/ c = 34 \/ c = 110 \/ c = 116 \/ c = 102.


(** ** Tactics *)

(** Bring a text to the form [c1 :: c2 :: ... ++ rest]. *)
Ltac flatten_text :=
  repeat first [ rewrite <- app_assoc | progress cbn [app] ].

(** Run the tests the parser makes on the characters at the head of a
    text. *)
Ltac read_text :=
  cbn [starts_with skip_ws is_json_ws N.eqb Pos.eqb orb andb].

(** ** More of the two files: the image URL, the search, the theme *)

(** [s.startsWith(p)]. *)
Fixpoint startsWith (p s : jsstring) : bool :=
  match p, s with
  | [], _ => true
  | a :: p', c :: s' => (c =? a) && startsWith p' s'
  | _ :: _, [] => false
  end.

(** [s.includes(sub)]. *)
Fixpoint includes (s sub : jsstring) : bool :=
  startsWith sub s
  || match s with
     | [] => false
     | _ :: r => includes r sub
     end.

(** [s.split(sep)] for a separator that is not empty: the pieces between
    the occurrences of [sep], found from the left and not overlapping.
    [skip] counts the characters of an occurrence still to pass. *)
Fixpoint split_on (sep : jsstring) (skip : nat) (s : jsstring)
  : list jsstring :=
  match s with
  | [] => [[]]
  | c :: r =>
      match skip with
      | S k => split_on sep k r
      | O =>
          if startsWith sep s then [] :: split_on sep (length sep - 1) r
          else match split_on sep 0 r with
               | w :: ws => (c :: w) :: ws
               | [] => [[c]]
               end
      end
  end.

Definition split_str (sep s : jsstring) : list jsstring := split_on sep 0 s.

(** A value inside a template literal: [undefined] prints its name. *)
Definition interpolate (o : option jsstring) : jsstring :=
  match o with
  | Some s => s
  | None => js "undefined"
  end.

(** [getOptimizedUrl(url)] of the second component. *)
Definition getOptimizedUrl (url : jsstring) : jsstring :=
  if negb (truthy (Some url)) || negb (includes url (js "cloudinary.com"))
  then url
  else
    let parts := split_str (js "/upload/") url in
    interpolate (nth_error parts 0)
    ++ js "/upload/w_800,c_limit,q_auto,f_auto/"
    ++ interpolate (nth_error parts 1).



(** The search of the first component.  [String.prototype.toLowerCase] is
    the platform's; the definitions take it as it is. *)
Section Search.

Variable toLowerCase : jsstring -> jsstring.

(** The test of the inner [filter]. *)
Definition station_matches (query : jsstring) (s : Station) : bool :=
  includes (toLowerCase (name s)) query
  || includes (toLowerCase (code s)) query.

(** [{ ...line, stations: line.stations.filter(...) }]. *)
Definition restrict_line (query : jsstring) (line : MRTLine) : MRTLine :=
  mkMRTLine (line_id line) (line_name line) (colorClass line)
    (List.filter (station_matches query) (stations line)).

(** [filteredLines], the value of the [useMemo]. *)
Definition filteredLines (lines : list MRTLine) (searchQuery : jsstring)
  : list MRTLine :=
  if negb (truthy (Some (trim searchQuery))) then lines
  else
    let query := toLowerCase searchQuery in
    List.filter (fun line => (0 <? length (stations line))%nat)
      (map (restrict_line query) lines).

End Search.

(** [MRT_LINES.find(l => l.id === line.id) || line]. *)
Definition originalLine (lines : list MRTLine) (line : MRTLine) : MRTLine :=
  default line
    (List.find (fun l => bool_decide (line_id l = line_id line)) lines).

(** [originalVisitedCount], the count in a line header of the first
    component. *)
Definition originalVisitedCount (visitMap : VisitMap) (lines : list MRTLine)
  (line : MRTLine) : nat :=
  lineVisited visitMap (originalLine lines line).

(** The theme: the state cell [isDark], the class [dark] of the document
    element, and the item ['theme'] of [localStorage]. *)
Record Theme : Type := mkTheme {
  isDark : bool;
  classList_dark : bool;
  theme_item : option jsstring
}.

(** The page as it is loaded: [useState(false)], the class list as the
    document has it, and what is stored. *)
Definition loaded_page (dark_class : bool) (item : option jsstring) : Theme :=
  mkTheme false dark_class item.

(** The theme part of the mount effect; [prefers_dark] is
    [window.matchMedia('(prefers-color-scheme: dark)').matches]. *)
Definition initTheme (prefers_dark : bool) (th : Theme) : Theme :=
  let savedTheme := theme_item th in
  if bool_decide (savedTheme = Some (js "dark"))
     || (negb (truthy savedTheme) && prefers_dark)
  then mkTheme true true (theme_item th)
  else th.

Definition toggleTheme (th : Theme) : Theme :=
  let newMode := negb (isDark th) in
  if newMode then mkTheme newMode true (Some (js "dark"))
  else mkTheme newMode false (Some (js "light")).

(** ** Further invariants of the component *)

(** The stored item reads back as the store. *)
Definition persisted (st : App) : Prop :=
  as_VisitMap (load (localStorage st)) = Some (visitMap st).

(** There is a draft exactly when a station is selected. *)
Definition draft_iff_selected (st : App) : Prop :=
  is_Some (tempVisit st) <-> is_Some (selectedStationData st).

Definition is_upload (t : Task) : bool :=
  match t with
  | UploadImage _ _ => true
  | _ => false
  end.

(** The events that write the store. *)
Definition writes_store (e : Event) : bool :=
  match e with
  | ClickSave | ClickClear => true
  | _ => false
  end.

(** The events that start an operation. *)
Definition selects_file (e : Event) : bool :=
  match e with
  | ChangeFile (Some _) => true
  | _ => false
  end.

(** [parts.join(sep)] for a list of parts that is not empty. *)
Definition join (sep : jsstring) (parts : list jsstring) : jsstring :=
  match parts with
  | [] => []
  | p :: ps => p ++ concat (map (fun q => sep ++ q) ps)
  end.

(** Membership of a character in a literal, and its negation. *)
Ltac in_literal := vm_compute; repeat constructor.

Ltac not_in_literal :=
  let H := fresh in
  vm_compute; intros H;
  repeat (apply elem_of_cons in H as [H|H]; [discriminate|]);
  by apply elem_of_nil in H.

(** [toLowerCase] on the letters A to Z; the platform's function agrees with
    it on strings of ASCII characters. *)
Definition lower_ascii (s : jsstring) : jsstring :=
  map (fun c => if (65 <=? c) && (c <=? 90) then c + 32 else c) s.

(** In the first component the indicator is on only while a generation
    request is in flight. *)
Definition generating_means_request (st : App) : Prop :=
  isGeneratingCaption st = true ->
  exists file request, GenerateContent file request ∈ inFlight st.

(** ** Reading a property of the store

    [commit], [remove], [serialize] and [totalVisited] go by the own
    properties of the store object, which a [gmap] holds.  A read
    [visitMap[k]] finds more: for a key the object does not have, what the
    object inherits from [Object.prototype].  The names below are the
    properties the standard gives that prototype. *)
Definition Object_prototype_names : list jsstring :=
  [js "constructor"; js "hasOwnProperty"; js "isPrototypeOf";
   js "propertyIsEnumerable"; js "toLocaleString"; js "toString";
   js "valueOf"; js "__proto__"; js "__defineGetter__";
   js "__defineSetter__"; js "__lookupGetter__"; js "__lookupSetter__"].

(** What a read [visitMap[k]] finds. *)
Inductive Property : Type :=
| Own (d : VisitLog)  (* an entry of the store *)
| Inherited           (* a function, or the prototype: truthy, and no record *)
| Undefined.

Definition get_property (visitMap : VisitMap) (k : jsstring) : Property :=
  match visitMap !! k with
  | Some d => Own d
  | None =>
      if bool_decide (k ∈ Object_prototype_names) then Inherited
      else Undefined
  end.

(** The read as [handleStationClick] and [lineVisited] above take it: the
    own entry, or nothing. *)
Definition own_entry (visitMap : VisitMap) (k : jsstring) : Property :=
  match visitMap !! k with
  | Some d => Own d
  | None => Undefined
  end.

(** No station of the catalog has the name of an inherited property as its
    code.  For such a catalog the two reads agree at every station. *)
Definition plain_codes (lines : list MRTLine) : bool :=
  forallb (fun k => negb (bool_decide (k ∈ Object_prototype_names)))
    (catalog_codes lines).

(** [visitMap[s.code]] as the condition of a [filter]. *)
Definition reads_truthy (visitMap : VisitMap) (k : jsstring) : bool :=
  match get_property visitMap k with
  | Undefined => false
  | _ => true
  end.

(** [line.stations.filter(s => visitMap[s.code]).length] with the read as
    the page does it. *)
Definition visitedCount (visitMap : VisitMap) (line : MRTLine) : nat :=
  length (List.filter (fun s => reads_truthy visitMap (code s))
            (stations line)).

(** ** A write that the storage refuses

    [localStorage.setItem] throws a [QuotaExceededError] when the storage
    does not take the text; [setItem] above is the call that succeeds.
    [accepts] tells which texts the storage takes.  In [saveEntry] and in
    [deleteEntry] the call comes after [setVisitMap(newMap)] and before
    [setIsModalOpen(false)]: when it throws, the exception leaves the
    handler, the store has its new value, and the item and the modal are as
    they were. *)
Definition saveEntry_within (accepts : jsstring -> bool) (st : App) : App :=
  match tempVisit st with
  | None => st
  | Some d =>
      let newMap := commit d (visitMap st) in
      if accepts (serialize newMap) then
        setIsModalOpen false
          (setItem (serialize newMap) (setVisitMap newMap st))
      else setVisitMap newMap st
  end.

Definition deleteEntry_within (accepts : jsstring -> bool) (st : App) : App :=
  match selectedStationData st with
  | None => st
  | Some (station, _) =>
      let newMap := remove (code station) (visitMap st) in
      if accepts (serialize newMap) then
        setIsModalOpen false
          (setItem (serialize newMap) (setVisitMap newMap st))
      else setVisitMap newMap st
  end.

(** One event, and a sequence of events, over such a storage. *)
Definition step_within (accepts : jsstring -> bool) (ver : Version)
  (env : Env) (st : App) (e : Event) : option App :=
  match e with
  | ClickSave =>
      guard (modal_shown st && negb (save_disabled ver st))
        (saveEntry_within accepts st)
  | ClickClear => guard (modal_shown st) (deleteEntry_within accepts st)
  | _ => step ver env st e
  end.

Fixpoint run_within (accepts : jsstring -> bool) (ver : Version) (env : Env)
  (st : App) (es : list Event) : option App :=
  match es with
  | [] => Some st
  | e :: es' =>
      match step_within accepts ver env st e with
      | Some st' => run_within accepts ver env st' es'
      | None => None
      end
  end.

(** The event is a write that the storage refuses. *)
Definition write_refused (accepts : jsstring -> bool) (st : App) (e : Event)
  : bool :=
  match e with
  | ClickSave =>
      match tempVisit st with
      | Some d => negb (accepts (serialize (commit d (visitMap st))))
      | None => false
      end
  | ClickClear =>
      match selectedStationData st with
      | Some (station, _) =>
          negb (accepts (serialize (remove (code station) (visitMap st))))
      | None => false
      end
  | _ => false
  end.

(** Some write of the sequence is refused. *)
Fixpoint refused (accepts : jsstring -> bool) (ver : Version) (env : Env)
  (st : App) (es : list Event) : bool :=
  match es with
  | [] => false
  | e :: es' =>
      write_refused accepts st e
      || match step_within accepts ver env st e with
         | Some st' => refused accepts ver env st' es'
         | None => false
         end
  end.



(** * Properties *)

(** ** Small facts about the handlers *)

Lemma guard_Some (b : bool) (st st' : App) :
  guard b st = Some st' -> b = true /\ st' = st.
Proof. unfold guard. destruct b; intros H; [by inversion H | discriminate]. Qed.

Lemma patch_stationCode (f : VisitLog -> VisitLog) (prev : option VisitLog) d' :
  (forall d, stationCode (f d) = stationCode d) ->
  patch f prev = Some d' ->
  exists d, prev = Some d /\ stationCode d' = stationCode d.
Proof.
  intros Hf. destruct prev as [d|]; simpl; intros H; [|discriminate].
  inversion H; subst. eauto.
Qed.

(** ** The keys of the store are the station codes of the records *)

Lemma keyed_mounted_empty (savedData : option jsstring) :
  keyed (mounted ∅ savedData).
Proof.
  split; simpl.
  - intros c d H. by rewrite lookup_empty in H.
  - intros d H. discriminate.
Qed.

Lemma keyed_patch (f : VisitLog -> VisitLog) (st : App) :
  (forall d, stationCode (f d) = stationCode d) ->
  keyed st -> keyed (setTempVisit (patch f) st).
Proof.
  intros Hf [Hm Hd]. split; simpl; [exact Hm|].
  intros d' H. destruct (patch_stationCode f _ _ Hf H) as (d & Hd0 & Heq).
  destruct (Hd d Hd0) as (s & l & Hs & Hc). exists s, l. split; [done|congruence].
Qed.

Lemma keyed_handleStationClick station line today st :
  keyed st -> keyed (handleStationClick station line today st).
Proof.
  intros [Hm Hd]. split; simpl; [exact Hm|].
  intros d H. exists station, line. split; [done|].
  destruct (visitMap st !! code station) as [d0|] eqn:E; inversion H; subst.
  - by apply Hm.
  - done.
Qed.

Lemma keyed_saveEntry st : keyed st -> keyed (saveEntry st).
Proof.
  intros K. unfold saveEntry.
  destruct (tempVisit st) as [d|] eqn:E; [|exact K].
  destruct K as [Hm Hd]. split; simpl.
  - intros c d'. unfold commit. rewrite lookup_insert.
    case_decide; [intros Hx; inversion Hx; by subst | apply Hm].
  - exact Hd.
Qed.

Lemma keyed_deleteEntry st : keyed st -> keyed (deleteEntry st).
Proof.
  intros K. unfold deleteEntry.
  destruct (selectedStationData st) as [[station line]|] eqn:E; [|exact K].
  destruct K as [Hm Hd]. split; simpl.
  - intros c d'. unfold remove. rewrite lookup_delete.
    case_decide; [discriminate | apply Hm].
  - exact Hd.
Qed.

Lemma keyed_frame st st' :
  visitMap st' = visitMap st ->
  tempVisit st' = tempVisit st ->
  selectedStationData st' = selectedStationData st ->
  keyed st -> keyed st'.
Proof.
  intros H1 H2 H3 [Hm Hd]. split.
  - rewrite H1. exact Hm.
  - rewrite H2, H3. exact Hd.
Qed.

Lemma keyed_handleImageUpload ver file st :
  keyed st -> keyed (handleImageUpload ver file st).
Proof.
  intros H. unfold handleImageUpload.
  destruct file, (tempVisit st), ver; try exact H;
    by apply (keyed_frame st).
Qed.

Lemma keyed_generateCaption env file sel st :
  keyed st -> keyed (generateCaption env file sel st).
Proof.
  intros H. unfold generateCaption.
  destruct (truthy _); [by apply (keyed_frame st) | exact H].
Qed.

Lemma keyed_continue ver env t o st st' :
  continue ver env t o st = Some st' -> keyed st -> keyed st'.
Proof.
  intros H K.
  destruct ver, t, o; simpl in H; inversion H; subst; clear H.
  - destruct (truthy _);
      [eapply keyed_frame; [..| apply (keyed_patch (with_imageData (readAsDataURL file)) st)]
      | apply keyed_patch]; done.
  - eapply keyed_frame; [..| apply (keyed_patch (with_caption (trim value)) st)]; done.
  - by apply (keyed_frame st).
  - by apply keyed_patch.
  - eapply keyed_frame;
      [..| apply (keyed_generateCaption env file sel),
             (keyed_patch (with_imageData value) st)]; done.
  - by apply (keyed_frame st).
  - by apply (keyed_frame st).
  - eapply keyed_frame; [..| apply (keyed_patch (with_caption (trim value)) st)]; done.
  - by apply (keyed_frame st).
Qed.

Lemma keyed_step ver env st e st' :
  step ver env st e = Some st' -> keyed st -> keyed st'.
Proof.
  intros H K. destruct e; simpl in H.
  - apply guard_Some in H as [_ ->]. by apply keyed_handleStationClick.
  - apply guard_Some in H as [_ ->]. by apply (keyed_frame st).
  - apply guard_Some in H as [_ ->]. by apply keyed_patch.
  - apply guard_Some in H as [_ ->]. by apply keyed_patch.
  - apply guard_Some in H as [_ ->]. by apply keyed_patch.
  - apply guard_Some in H as [_ ->]. by apply keyed_patch.
  - apply guard_Some in H as [_ ->]. by apply keyed_handleImageUpload.
  - apply guard_Some in H as [_ ->]. by apply keyed_saveEntry.
  - apply guard_Some in H as [_ ->]. by apply keyed_deleteEntry.
  - destruct (inFlight st !! i) as [t|]; [|discriminate].
    eapply keyed_continue; [exact H|]. by apply (keyed_frame st).
Qed.

Lemma keyed_run ver env es : forall st st',
  run ver env st es = Some st' -> keyed st -> keyed st'.
Proof.
  induction es as [|e es IH]; simpl; intros st st' H K.
  - by inversion H; subst.
  - destruct (step ver env st e) as [st1|] eqn:E; [|discriminate].
    eapply IH; [exact H|]. eapply keyed_step; eauto.
Qed.

(** ** Removal *)

(** C7. [deleteEntry] leaves a store without the selected station's code,
    whether the store had it or not; when it had not, the store is the same
    as before, and the handler ends normally either way, having written the
    store to [localStorage]. *)
Theorem deleteEntry_removes_key st station line :
  selectedStationData st = Some (station, line) ->
  visitMap (deleteEntry st) !! code station = None
  /\ (forall c, c <> code station ->
        visitMap (deleteEntry st) !! c = visitMap st !! c)
  /\ (visitMap st !! code station = None ->
        visitMap (deleteEntry st) = visitMap st)
  /\ localStorage (deleteEntry st)
     = Some (serialize (visitMap (deleteEntry st))).
Proof.
  intros Hsel. unfold deleteEntry. rewrite Hsel. simpl. unfold remove.
  split; [apply lookup_delete_eq|].
  split; [intros c Hc; by apply lookup_delete_ne|].
  split; [apply delete_id | reflexivity].
Qed.

Lemma deleteEntry_removes_key_witness :
  let st := mkApp {[ js "EW18" := sample_record ]} (Some (NS1, NSL)) true
              false false None None [] [] in
  selectedStationData st = Some (NS1, NSL)
  /\ visitMap (deleteEntry st) !! code NS1 = None
  /\ visitMap (deleteEntry st) = visitMap st.
Proof.
  intros st.
  assert (Hs : selectedStationData st = Some (NS1, NSL)) by reflexivity.
  destruct (deleteEntry_removes_key st NS1 NSL Hs) as (H1 & _ & H3 & _).
  split; [exact Hs|]. split; [exact H1|].
  apply H3. vm_compute. reflexivity.
Defined.

(** ** Progress *)

Lemma totalStations_from (lines : list MRTLine) (n : nat) :
  fold_left (fun sum line => (sum + length (stations line))%nat) lines n
  = (n + length (catalog_codes lines))%nat.
Proof.
  revert n. induction lines as [|l lines IH]; intros n.
  - simpl. lia.
  - cbn [fold_left]. rewrite IH.
    change (catalog_codes (l :: lines))
      with ((code <$> stations l) ++ catalog_codes lines).
    rewrite length_app, length_fmap. lia.
Qed.

Lemma totalStations_catalog_codes (lines : list MRTLine) :
  totalStations lines = length (catalog_codes lines).
Proof. unfold totalStations. by rewrite totalStations_from. Qed.

Lemma filter_all {A} (P : A -> Prop) `{forall x, Decision (P x)} (l : list A) :
  (forall x, x ∈ l -> P x) -> filter P l = l.
Proof.
  induction l as [|x l IH]; intros Hall; [done|].
  rewrite filter_cons_True by (apply Hall; left).
  f_equal. apply IH. intros y Hy. apply Hall. by right.
Qed.

Lemma progress_of_catalog_keys (m : VisitMap) (lines : list MRTLine) :
  (forall k, is_Some (m !! k) -> k ∈ catalog_codes lines) ->
  totalVisited m = keys_in_catalog m lines
  /\ (totalVisited m <= totalStations lines)%nat.
Proof.
  intros Hkeys.
  assert (Hin : forall k, k ∈ (map_to_list m).*1 -> k ∈ catalog_codes lines).
  { intros k Hk. apply list_elem_of_fmap in Hk as ([k' d] & -> & Hkd).
    apply elem_of_map_to_list in Hkd. apply Hkeys. simpl. eauto. }
  unfold totalVisited, keys_in_catalog. split.
  - rewrite (filter_all _ _ Hin), length_fmap. symmetry. apply length_map_to_list.
  - rewrite totalStations_catalog_codes, <- length_map_to_list.
    rewrite <- (length_fmap fst). apply submseteq_length.
    apply NoDup_submseteq; [apply NoDup_fst_map_to_list | exact Hin].
Qed.

(** C6, as the component computes it.  The visited count is the number of
    keys of the store.  When every key is the code of a station of the
    catalog, it is the number of keys that are a station of the catalog, and
    it is at most the total count. *)
Theorem progress_visited_le_total (m : VisitMap) (lines : list MRTLine) :
  (forall k, is_Some (m !! k) -> k ∈ catalog_codes lines) ->
  totalVisited m = size m
  /\ totalVisited m = keys_in_catalog m lines
  /\ (totalVisited m <= totalStations lines)%nat.
Proof.
  intros Hkeys. split; [reflexivity|]. by apply progress_of_catalog_keys.
Qed.

Lemma progress_visited_le_total_witness :
  let m : VisitMap := {[ js "EW18" := sample_record ]} in
  (forall k, is_Some (m !! k) -> k ∈ catalog_codes [EWL; NSL])
  /\ totalVisited m = keys_in_catalog m [EWL; NSL]
  /\ (totalVisited m <= totalStations [EWL; NSL])%nat.
Proof.
  intros m.
  assert (Hk : forall k, is_Some (m !! k) -> k ∈ catalog_codes [EWL; NSL]).
  { intros k [d Hd]. apply lookup_singleton_Some in Hd as [<- _].
    vm_compute. left. }
  split; [exact Hk|].
  exact (proj2 (progress_visited_le_total m [EWL; NSL] Hk)).
Defined.

(** C6, as it is worded, fails on a store with a key that is no station of
    the catalog: the key is counted.  The store is read from a stored item
    with three keys, two of them stations of a catalog of two stations. *)
Lemma progress_counts_foreign_keys :
  let savedData :=
    json_text "{'EW18':{'stationCode':'EW18','visitedDate':'2024-05-01'},'NS1':{'stationCode':'NS1','visitedDate':'2020-01-02'},'ZZ9':{'stationCode':'ZZ9','visitedDate':'2020-01-01'}}" in
  let m : VisitMap :=
    <[ js "ZZ9" := mkVisitLog (js "ZZ9") (js "2020-01-01") None None None None ]>
      (<[ js "NS1" := mkVisitLog (js "NS1") (js "2020-01-02") None None None None ]>
         {[ js "EW18" := sample_record ]}) in
  visitMap <$> mount (Some savedData) = Some m
  /\ totalVisited m = 3%nat
  /\ keys_in_catalog m [EWL; NSL] = 2%nat
  /\ totalStations [EWL; NSL] = 2%nat
  /\ ~ (totalVisited m = keys_in_catalog m [EWL; NSL]
        /\ (totalVisited m <= totalStations [EWL; NSL])%nat).
Proof.
  vm_compute. repeat split. intros [H _]. discriminate H.
Qed.

Lemma bubble_shown_in_catalog env station line :
  bubble_shown env station line = true ->
  code station ∈ catalog_codes (MRT_LINES env).
Proof.
  unfold bubble_shown. rewrite andb_true_iff, bool_decide_eq_true.
  intros [Hs Hex]. apply existsb_exists in Hex as (l & Hl & Hb).
  rewrite !andb_true_iff, !bool_decide_eq_true in Hb.
  destruct Hb as [_ Hsub].
  unfold catalog_codes. apply list_elem_of_In, in_concat.
  exists (code <$> stations l). split; apply list_elem_of_In.
  - apply list_elem_of_fmap. exists l. split; [done|]. by apply list_elem_of_In.
  - apply list_elem_of_fmap. exists station. split; [done|]. by apply Hsub.
Qed.

Lemma within_catalog_frame env st st' :
  visitMap st' = visitMap st ->
  selectedStationData st' = selectedStationData st ->
  within_catalog env st -> within_catalog env st'.
Proof. intros H1 H2 [Hm Hs]. split; [by rewrite H1 | by rewrite H2]. Qed.

Lemma within_catalog_continue ver env t o st st' :
  continue ver env t o st = Some st' ->
  visitMap st' = visitMap st /\ selectedStationData st' = selectedStationData st.
Proof.
  intros H. destruct ver, t, o; simpl in H; inversion H; subst; clear H;
    unfold generateCaption; repeat case_match; done.
Qed.

Lemma within_catalog_step ver env st e st' :
  step ver env st e = Some st' ->
  keyed st -> within_catalog env st -> within_catalog env st'.
Proof.
  intros H [_ Kd] W. destruct e; simpl in H;
    try (apply guard_Some in H as [Hg ->]).
  - destruct W as [Hm _]. split; [exact Hm|]. simpl.
    intros s l Hsl. inversion Hsl; subst. by eapply bubble_shown_in_catalog.
  - by apply (within_catalog_frame env st).
  - by apply (within_catalog_frame env st).
  - by apply (within_catalog_frame env st).
  - by apply (within_catalog_frame env st).
  - by apply (within_catalog_frame env st).
  - apply (within_catalog_frame env st); [..|done];
      unfold handleImageUpload; repeat case_match; done.
  - unfold saveEntry. destruct (tempVisit st) as [d|] eqn:E; [|exact W].
    destruct W as [Hm Hs]. split; [|exact Hs]. simpl. intros k.
    unfold commit. rewrite lookup_insert. case_decide; [|apply Hm].
    intros _. subst k. destruct (Kd d eq_refl) as (s & l & Hsel & ->). by eapply Hs.
  - unfold deleteEntry.
    destruct (selectedStationData st) as [[s l]|] eqn:E; [|exact W].
    destruct W as [Hm Hs]. split; simpl.
    + intros k. unfold remove. rewrite lookup_delete.
      case_decide; [by intros [? ?] | apply Hm].
    + exact Hs.
  - destruct (inFlight st !! i) as [t|]; [|discriminate].
    apply within_catalog_continue in H as [H1 H2].
    by apply (within_catalog_frame env st).
Qed.

(** What the component reaches from an empty store has only stations of the
    catalog as keys, so the count it shows is the one C6 words.  The states
    are those of [step], whose [handleStationClick] is the handler of the
    page on a catalog with [plain_codes]. *)
Lemma reachable_progress ver env st :
  reachable ver env st ->
  totalVisited (visitMap st) = keys_in_catalog (visitMap st) (MRT_LINES env)
  /\ (totalVisited (visitMap st) <= totalStations (MRT_LINES env))%nat.
Proof.
  intros (savedData & es & Hrun). apply progress_of_catalog_keys.
  assert (Hinv : keyed st /\ within_catalog env st); [|by destruct Hinv as [_ [? _]]].
  revert Hrun.
  assert (H0 : keyed (mounted ∅ savedData)
               /\ within_catalog env (mounted ∅ savedData)).
  { split; [apply keyed_mounted_empty|]. split; simpl.
    - intros k [d Hd]. by rewrite lookup_empty in Hd.
    - discriminate. }
  revert H0. generalize (mounted ∅ savedData). revert st.
  induction es as [|e es IH]; simpl; intros st st0 H0 Hrun.
  - by inversion Hrun; subst.
  - destruct (step ver env st0 e) as [st1|] eqn:E; [|discriminate].
    apply (IH st st1); [|exact Hrun]. destruct H0 as [K W].
    split; [by eapply keyed_step | by eapply within_catalog_step].
Qed.

(** ** Reading the store at a station of the catalog *)

Lemma plain_codes_elem (lines : list MRTLine) (k : jsstring) :
  plain_codes lines = true ->
  k ∈ catalog_codes lines -> k ∉ Object_prototype_names.
Proof.
  unfold plain_codes. rewrite forallb_forall. intros Hall Hk.
  apply list_elem_of_In, Hall in Hk.
  apply negb_true_iff in Hk. by apply bool_decide_eq_false in Hk.
Qed.

(** At a key that is no inherited name, the read finds the own entry or
    nothing. *)
Lemma get_property_plain (m : VisitMap) (k : jsstring) :
  k ∉ Object_prototype_names -> get_property m k = own_entry m k.
Proof.
  intros Hk. unfold get_property, own_entry.
  destruct (m !! k); [done|]. by rewrite bool_decide_eq_false_2.
Qed.

(** At an inherited name that is no key, it finds the inherited value. *)
Lemma get_property_inherited (m : VisitMap) (k : jsstring) :
  k ∈ Object_prototype_names -> m !! k = None ->
  get_property m k = Inherited /\ own_entry m k = Undefined.
Proof.
  intros Hk Hm. unfold get_property, own_entry. rewrite Hm.
  by rewrite bool_decide_eq_true_2.
Qed.

Lemma reachable_keyed_within ver env st :
  reachable ver env st -> keyed st /\ within_catalog env st.
Proof.
  intros (savedData & es & Hrun). revert Hrun.
  assert (H0 : keyed (mounted ∅ savedData)
               /\ within_catalog env (mounted ∅ savedData)).
  { split; [apply keyed_mounted_empty|]. split; simpl.
    - intros k [d Hd]. by rewrite lookup_empty in Hd.
    - discriminate. }
  revert H0. generalize (mounted ∅ savedData). revert st.
  induction es as [|e es IH]; simpl; intros st st0 H0 Hrun.
  - by inversion Hrun; subst.
  - destruct (step ver env st0 e) as [st1|] eqn:E; [|discriminate].
    apply (IH st st1); [|exact Hrun]. destruct H0 as [K W].
    split; [by eapply keyed_step | by eapply within_catalog_step].
Qed.

(** C10.  Let no station of the catalog have the name of a property of
    [Object.prototype] as its code.  Then, from an empty store, whatever the
    user does and whatever the operations in flight return, every key [c] of
    the store holds a record whose [stationCode] is [c]; the key is the code
    of a station of the catalog and no inherited name; and at every station
    the page offers, the read [visitMap[station.code]] of
    [handleStationClick] finds the own entry or nothing, as the handler
    above has it. *)
Theorem visitMap_keyed_by_stationCode ver env st c d :
  plain_codes (MRT_LINES env) = true ->
  reachable ver env st ->
  visitMap st !! c = Some d ->
  stationCode d = c
  /\ c ∈ catalog_codes (MRT_LINES env)
  /\ (c ∉ Object_prototype_names)
  /\ (forall station line,
        bubble_shown env station line = true ->
        get_property (visitMap st) (code station)
        = own_entry (visitMap st) (code station)).
Proof.
  intros Hplain Hr Hc.
  destruct (reachable_keyed_within ver env st Hr) as [[Hm _] [Hk _]].
  assert (Hin : c ∈ catalog_codes (MRT_LINES env)) by (apply Hk; eauto).
  split; [by apply Hm|]. split; [exact Hin|].
  split; [by eapply plain_codes_elem|].
  intros station line Hb. apply get_property_plain.
  eapply plain_codes_elem; [exact Hplain|].
  by eapply bubble_shown_in_catalog.
Qed.

Lemma visitMap_keyed_by_stationCode_witness :
  let st := mkApp {[ js "EW18" := sample_record ]} (Some (EW18, EWL)) false
              false false (Some sample_record)
              (Some (serialize {[ js "EW18" := sample_record ]})) [] [] in
  plain_codes (MRT_LINES (sample_env None)) = true
  /\ reachable Inline (sample_env None) st
  /\ visitMap st !! js "EW18" = Some sample_record
  /\ stationCode sample_record = js "EW18".
Proof.
  intros st.
  assert (Hp : plain_codes (MRT_LINES (sample_env None)) = true)
    by (vm_compute; reflexivity).
  assert (Hr : reachable Inline (sample_env None) st).
  { exists None, [StationClick EW18 EWL (js "2024-05-01"); ClickSave].
    vm_compute. reflexivity. }
  assert (Hl : visitMap st !! js "EW18" = Some sample_record).
  { vm_compute. reflexivity. }
  split; [exact Hp|]. split; [exact Hr|]. split; [exact Hl|].
  exact (proj1 (visitMap_keyed_by_stationCode Inline (sample_env None) st
                  (js "EW18") sample_record Hp Hr Hl)).
Defined.

(** Why the catalog matters: in a catalog with a station of code
    [constructor] the read at that station finds the inherited function on
    an empty store, where the own entry is missing. *)
Lemma inherited_name_is_read_from_prototype :
  let lines := [mkMRTLine (js "XL") (js "X Line") (js "bg-blue-600")
                  [mkStation (js "constructor") (js "Constructor")]] in
  plain_codes lines = false
  /\ get_property ∅ (js "constructor") = Inherited
  /\ own_entry ∅ (js "constructor") = Undefined
  /\ reads_truthy ∅ (js "constructor") = true.
Proof. vm_compute. repeat split. Qed.

(** ** Saving *)

Lemma saveEntry_commits st d :
  tempVisit st = Some d ->
  visitMap (saveEntry st) = commit d (visitMap st)
  /\ visitMap (saveEntry st) !! stationCode d = Some d
  /\ localStorage (saveEntry st) = Some (serialize (visitMap (saveEntry st)))
  /\ inFlight (saveEntry st) = inFlight st
  /\ isModalOpen (saveEntry st) = false.
Proof.
  intros H. unfold saveEntry. rewrite H. simpl.
  repeat split. apply lookup_insert_eq.
Qed.




(** The first component has no upload and never disables the button. *)
Lemma save_always_offered_inline env st :
  modal_shown st = true -> step Inline env st ClickSave = Some (saveEntry st).
Proof. intros Hm. simpl. by rewrite Hm. Qed.



(** ** The caption step *)









(** While the upload is pending, no caption operation is in flight either. *)
Lemma no_caption_during_upload :
  exists st,
    run Cloudinary (sample_env (Some (js "key"))) (mounted ∅ None)
      [StationClick EW18 EWL (js "2024-05-01"); ChangeFile (Some photo)]
    = Some st
    /\ inFlight st = [ReaderOnload photo; UploadImage photo (Some (EW18, EWL))]
    /\ isGeneratingCaption st = false.
Proof. eexists. split; [vm_compute; reflexivity|]. repeat split. Qed.

(** ** Results that arrive late *)

(** C2, as both components do it.  The user types a caption while the
    generation request is in flight; when the generated text arrives, the
    draft's caption becomes that text, trimmed, and the typed one is gone.
    The other fields of the draft stay. *)
Theorem generated_caption_replaces_typed ver env st i file request typed
    response_text d :
  modal_shown st = true ->
  inFlight st !! i = Some (GenerateContent file request) ->
  tempVisit st = Some d ->
  exists st1 st2,
    step ver env st (ChangeCaption typed) = Some st1
    /\ tempVisit st1 = Some (with_caption typed d)
    /\ step ver env st1 (Settle i (Fulfilled response_text)) = Some st2
    /\ tempVisit st2 = Some (with_caption (trim response_text) d).
Proof.
  intros Hm Hi Hd.
  exists (setTempVisit (patch (with_caption typed)) st).
  eexists. split; [simpl; by rewrite Hm|].
  split; [simpl; by rewrite Hd|].
  split.
  - simpl. rewrite Hi. destruct ver; reflexivity.
  - simpl. rewrite Hd. destruct ver; reflexivity.
Qed.

Lemma generated_caption_replaces_typed_witness :
  let request := caption_request photo (Some (EW18, EWL)) in
  let st := mkApp ∅ (Some (EW18, EWL)) true false true (Some sample_record)
              None [GenerateContent photo request] [] in
  modal_shown st = true
  /\ inFlight st !! 0%nat = Some (GenerateContent photo request)
  /\ tempVisit st = Some sample_record
  /\ exists st1 st2,
       step Inline (sample_env (Some (js "key"))) st
         (ChangeCaption (js "my own words")) = Some st1
       /\ step Inline (sample_env (Some (js "key"))) st1
            (Settle 0 (Fulfilled (js " A quiet platform. "))) = Some st2
       /\ (caption <$> tempVisit st2) = Some (Some (js "A quiet platform.")).
Proof.
  intros request st.
  assert (Hm : modal_shown st = true) by reflexivity.
  assert (Hi : inFlight st !! 0%nat = Some (GenerateContent photo request))
    by reflexivity.
  assert (Hd : tempVisit st = Some sample_record) by reflexivity.
  split; [exact Hm|]. split; [exact Hi|]. split; [exact Hd|].
  destruct (generated_caption_replaces_typed Inline
              (sample_env (Some (js "key"))) st 0 photo request
              (js "my own words") (js " A quiet platform. ") sample_record
              Hm Hi Hd) as (st1 & st2 & H1 & _ & H3 & H4).
  exists st1, st2. split; [exact H1|]. split; [exact H3|].
  rewrite H4. vm_compute. reflexivity.
Defined.

(** C2, as it is worded, fails in the second component: the caption typed
    after the request was started is overwritten when the result arrives. *)
Lemma typed_caption_overwritten :
  exists st1 st2 d1 d2,
    run Cloudinary (sample_env (Some (js "key"))) (mounted ∅ None)
      [StationClick EW18 EWL (js "2024-05-01"); ChangeFile (Some photo);
       Settle 0 Loaded; Settle 0 (Fulfilled sample_url); Settle 0 Loaded;
       ChangeCaption (js "my own words")] = Some st1
    /\ inFlight st1
       = [GenerateContent photo (caption_request photo (Some (EW18, EWL)))]
    /\ tempVisit st1 = Some d1
    /\ caption d1 = Some (js "my own words")
    /\ step Cloudinary (sample_env (Some (js "key"))) st1
         (Settle 0 (Fulfilled (js "A quiet platform."))) = Some st2
    /\ tempVisit st2 = Some d2
    /\ caption d2 = Some (js "A quiet platform.")
    /\ caption d2 <> caption d1.
Proof.
  eexists _, _, _, _. split; [vm_compute; reflexivity|].
  split; [vm_compute; reflexivity|].
  split; [vm_compute; reflexivity|].
  split; [reflexivity|].
  split; [vm_compute; reflexivity|].
  split; [reflexivity|].
  split; [vm_compute; reflexivity|].
  vm_compute. discriminate.
Qed.

(** The same in the first component. *)
Lemma inline_result_replaces_typed :
  exists st d,
    run Inline (sample_env (Some (js "key"))) (mounted ∅ None)
      [StationClick EW18 EWL (js "2024-05-01"); ChangeFile (Some photo);
       Settle 0 Loaded; ChangeCaption (js "my own words");
       Settle 0 (Fulfilled (js "A quiet platform."))] = Some st
    /\ tempVisit st = Some d
    /\ caption d = Some (js "A quiet platform.").
Proof.
  eexists _, _. split; [vm_compute; reflexivity|].
  split; [reflexivity | vm_compute; reflexivity].
Qed.

Lemma continue_frame ver env t o st st' :
  continue ver env t o st = Some st' ->
  visitMap st' = visitMap st
  /\ localStorage st' = localStorage st
  /\ selectedStationData st' = selectedStationData st
  /\ isModalOpen st' = isModalOpen st
  /\ exists f,
       tempVisit st' = patch f (tempVisit st)
       /\ forall d, stationCode (f d) = stationCode d
                    /\ visitedDate (f d) = visitedDate d
                    /\ highlights (f d) = highlights d
                    /\ goodFood (f d) = goodFood d.
Proof.
  intros H.
  destruct ver, t, o; simpl in H; inversion H; subst; clear H;
    unfold generateCaption; repeat case_match; simpl;
    repeat (split; [reflexivity|]);
    first [ by exists (with_imageData (readAsDataURL file))
          | by exists (with_imageData value)
          | by exists (with_caption (trim value))
          | exists (fun d => d); split; [by destruct (tempVisit st)|done] ].
Qed.

(** C3, as both components do it.  A result is applied to the draft that is
    current when it arrives, whichever station its request was started for
    ([sel] below is not compared with anything): an upload URL becomes the
    draft's [imageData], a generated text its [caption].  No result changes
    the draft's [stationCode], date, highlights or food notes, nor the store,
    nor the selection; without a draft a result changes nothing of them. *)
Theorem late_result_lands_on_current_draft ver env st i o st' :
  step ver env st (Settle i o) = Some st' ->
  visitMap st' = visitMap st
  /\ localStorage st' = localStorage st
  /\ selectedStationData st' = selectedStationData st
  /\ (tempVisit st = None -> tempVisit st' = None)
  /\ (forall d, tempVisit st = Some d ->
        exists d', tempVisit st' = Some d'
                   /\ stationCode d' = stationCode d
                   /\ visitedDate d' = visitedDate d
                   /\ highlights d' = highlights d
                   /\ goodFood d' = goodFood d)
  /\ (forall file sel cloudUrl d,
        inFlight st !! i = Some (UploadImage file sel) ->
        o = Fulfilled cloudUrl ->
        tempVisit st = Some d ->
        tempVisit st' = Some (with_imageData cloudUrl d))
  /\ (forall file request response_text d,
        inFlight st !! i = Some (GenerateContent file request) ->
        o = Fulfilled response_text ->
        tempVisit st = Some d ->
        tempVisit st' = Some (with_caption (trim response_text) d)).
Proof.
  intros H. simpl in H.
  destruct (inFlight st !! i) as [t|] eqn:Hi; [|discriminate].
  destruct (continue_frame _ _ _ _ _ _ H) as (H1 & H2 & H3 & _ & f & Hf & Hkeep).
  simpl in *.
  split; [exact H1|]. split; [exact H2|]. split; [exact H3|].
  split; [intros Hn; by rewrite Hf, Hn|].
  split.
  { intros d Hd. exists (f d). split; [by rewrite Hf, Hd | apply Hkeep]. }
  split.
  - intros file sel url d Ht -> Hd. inversion Ht; subst.
    destruct ver; simpl in H; [discriminate|].
    inversion H; subst. simpl. unfold generateCaption.
    destruct (truthy _); simpl; by rewrite Hd.
  - intros file request txt d Ht -> Hd. inversion Ht; subst.
    destruct ver; simpl in H; inversion H; subst; simpl; by rewrite Hd.
Qed.

Lemma late_result_lands_on_current_draft_witness :
  let d := mkVisitLog (js "NS1") (js "2024-05-02") None None None None in
  let st := mkApp ∅ (Some (NS1, NSL)) true true false (Some d) None
              [UploadImage photo (Some (EW18, EWL))] [] in
  exists st',
    step Cloudinary (sample_env None) st (Settle 0 (Fulfilled sample_url))
    = Some st'
    /\ tempVisit st' = Some (with_imageData sample_url d).
Proof.
  intros d st.
  assert (Hs : step Cloudinary (sample_env None) st
                 (Settle 0 (Fulfilled sample_url))
               = Some (mkApp ∅ (Some (NS1, NSL)) true false false
                         (Some (with_imageData sample_url d)) None [] []))
    by reflexivity.
  eexists. split; [exact Hs|].
  destruct (late_result_lands_on_current_draft _ _ _ _ _ _ Hs)
    as (_ & _ & _ & _ & _ & H & _).
  exact (H photo (Some (EW18, EWL)) sample_url d eq_refl eq_refl eq_refl).
Defined.

(** C3, as it is worded, fails: the upload started for Redhill is fulfilled
    after the user has closed the form and opened Jurong East, and its URL
    lands in the draft of Jurong East. *)
Lemma stale_upload_changes_other_draft :
  exists st st' d d',
    run Cloudinary (sample_env None) (mounted ∅ None)
      [StationClick EW18 EWL (js "2024-05-01"); ChangeFile (Some photo);
       Settle 0 Loaded; CloseModal; StationClick NS1 NSL (js "2024-05-01")]
    = Some st
    /\ inFlight st = [UploadImage photo (Some (EW18, EWL))]
    /\ tempVisit st = Some d
    /\ stationCode d = js "NS1"
    /\ imageData d = None
    /\ step Cloudinary (sample_env None) st (Settle 0 (Fulfilled sample_url))
       = Some st'
    /\ tempVisit st' = Some d'
    /\ stationCode d' = js "NS1"
    /\ imageData d' = Some sample_url
    /\ tempVisit st' <> tempVisit st.
Proof.
  eexists _, _, _, _. split; [vm_compute; reflexivity|].
  split; [vm_compute; reflexivity|].
  split; [vm_compute; reflexivity|].
  split; [reflexivity|]. split; [reflexivity|].
  split; [vm_compute; reflexivity|].
  split; [reflexivity|]. split; [reflexivity|].
  split; [vm_compute; reflexivity|].
  vm_compute. discriminate.
Qed.

(** The same with a generated caption, in the first component. *)
Lemma stale_caption_changes_other_draft :
  exists st d,
    run Inline (sample_env (Some (js "key"))) (mounted ∅ None)
      [StationClick EW18 EWL (js "2024-05-01"); ChangeFile (Some photo);
       Settle 0 Loaded; CloseModal; StationClick NS1 NSL (js "2024-05-01");
       Settle 0 (Fulfilled (js "A quiet platform."))] = Some st
    /\ tempVisit st = Some d
    /\ stationCode d = js "NS1"
    /\ caption d = Some (js "A quiet platform.").
Proof.
  eexists _, _. split; [vm_compute; reflexivity|].
  split; [reflexivity|]. split; vm_compute; reflexivity.
Qed.

(** ** Without an API key *)




Section NoApiKey.

Context (ver : Version) (env : Env).
Hypothesis no_key : truthy (getApiKey ver env) = false.



End NoApiKey.


(** ** [JSON.parse] undoes [JSON.stringify] *)

Lemma hex_value_hex_digit (n : N) : n < 16 -> hex_value (hex_digit n) = Some n.
Proof.
  intros Hn. unfold hex_digit, hex_value.
  destruct (N.ltb_spec n 10) as [H|H].
  - destruct (N.leb_spec 48 (48 + n)), (N.leb_spec (48 + n) 57);
      simpl; try lia. f_equal. lia.
  - destruct (N.leb_spec 48 (87 + n)), (N.leb_spec (87 + n) 57);
      simpl; try lia.
    destruct (N.leb_spec 97 (87 + n)), (N.leb_spec (87 + n) 102);
      simpl; try lia. f_equal. lia.
Qed.

Lemma hex4_unicode_escape (c : N) :
  c < 65536 ->
  hex4 (hex_digit (c / 4096 mod 16)) (hex_digit (c / 256 mod 16))
    (hex_digit (c / 16 mod 16)) (hex_digit (c mod 16)) = Some c.
Proof.
  intros Hc. unfold hex4.
  rewrite !hex_value_hex_digit by (apply N.mod_lt; lia).
  f_equal.
  pose proof (N.div_mod c 16 ltac:(lia)) as D1.
  pose proof (N.div_mod (c / 16) 16 ltac:(lia)) as D2.
  pose proof (N.div_mod (c / 256) 16 ltac:(lia)) as D3.
  pose proof (N.div_mod (c / 4096) 16 ltac:(lia)) as D4.
  replace (c / 16 / 16) with (c / 256) in D2
    by (rewrite N.Div0.div_div; reflexivity).
  replace (c / 256 / 16) with (c / 4096) in D3
    by (rewrite N.Div0.div_div; reflexivity).
  assert (H4 : c / 4096 / 16 = 0).
  { rewrite N.Div0.div_div. apply N.div_small. simpl. lia. }
  rewrite H4 in D4. lia.
Qed.

Lemma parse_chars_unicode_escape (c : N) (t : jsstring) :
  c < 65536 ->
  parse_chars (unicode_escape c ++ t) = prepend c (parse_chars t).
Proof.
  intros Hc. unfold unicode_escape. cbn [app parse_chars].
  change (92 =? 34) with false. change (92 =? 92) with true.
  change (117 =? 117) with true. cbv iota.
  by rewrite hex4_unicode_escape.
Qed.

Lemma parse_chars_raw (c : N) (t : jsstring) :
  c <> 34 -> c <> 92 -> 32 <= c ->
  parse_chars (c :: t) = prepend c (parse_chars t).
Proof.
  intros H1 H2 H3. cbn [parse_chars].
  destruct (N.eqb_spec c 34); [done|].
  destruct (N.eqb_spec c 92); [done|].
  destruct (N.ltb_spec c 32); [lia|done].
Qed.

Lemma surrogate_bounds (c : N) :
  (is_high_surrogate c = true -> 55296 <= c <= 56319)
  /\ (is_low_surrogate c = true -> 56320 <= c <= 57343).
Proof.
  unfold is_high_surrogate, is_low_surrogate.
  rewrite !andb_true_iff, !N.leb_le. done.
Qed.

(** A quoted string reads back as the string, whatever follows the closing
    quote. *)
Lemma parse_chars_quote_chars (s : jsstring) : forall (paired : bool) rest,
  (paired = true -> exists d r, s = d :: r /\ is_low_surrogate d = true) ->
  parse_chars (quote_chars paired s ++ 34 :: rest) = Some (s, rest).
Proof.
  induction s as [|c r IH]; intros paired rest Hp.
  - destruct paired; [destruct (Hp eq_refl) as (? & ? & ? & _); done|].
    reflexivity.
  - cbn [quote_chars]. destruct paired.
    { destruct (Hp eq_refl) as (d & r' & Heq & Hlow). inversion Heq; subst.
      apply surrogate_bounds in Hlow.
      cbn [app]. rewrite parse_chars_raw by lia.
      by rewrite IH. }
    assert (IH0 : parse_chars (quote_chars false r ++ 34 :: rest) = Some (r, rest))
      by (apply IH; discriminate).
    destruct (N.eqb_spec c 8) as [->|]; [cbn; by rewrite IH0|].
    destruct (N.eqb_spec c 9) as [->|]; [cbn; by rewrite IH0|].
    destruct (N.eqb_spec c 10) as [->|]; [cbn; by rewrite IH0|].
    destruct (N.eqb_spec c 12) as [->|]; [cbn; by rewrite IH0|].
    destruct (N.eqb_spec c 13) as [->|]; [cbn; by rewrite IH0|].
    destruct (N.eqb_spec c 34) as [->|]; [cbn; by rewrite IH0|].
    destruct (N.eqb_spec c 92) as [->|]; [cbn; by rewrite IH0|].
    destruct (N.ltb_spec c 32) as [Hlt|Hge].
    { rewrite <- app_assoc, parse_chars_unicode_escape by lia. by rewrite IH0. }
    destruct (is_high_surrogate c) eqn:Hhi.
    { apply surrogate_bounds in Hhi. destruct r as [|d r'].
      - rewrite parse_chars_unicode_escape by lia. reflexivity.
      - destruct (is_low_surrogate d) eqn:Hlow.
        + cbn [app]. rewrite parse_chars_raw by lia.
          rewrite IH; [done|]. intros _. eauto.
        + rewrite <- app_assoc, parse_chars_unicode_escape by lia.
          by rewrite IH0. }
    destruct (is_low_surrogate c) eqn:Hlo.
    { apply surrogate_bounds in Hlo.
      rewrite <- app_assoc, parse_chars_unicode_escape by lia. by rewrite IH0. }
    cbn [app]. rewrite parse_chars_raw by lia. by rewrite IH0.
Qed.

Lemma JSON_stringify_object (ms : list (jsstring * json)) :
  JSON.stringify (JObject ms) = 123 :: stringify_members true ms ++ [125].
Proof. reflexivity. Qed.

Lemma JSON_stringify_array (xs : list json) :
  JSON.stringify (JArray xs) = 91 :: stringify_elements true xs ++ [93].
Proof. reflexivity. Qed.

Lemma stringify_members_cons first k x ms :
  stringify_members first ((k, x) :: ms)
  = (if first then [] else [44]) ++ 34 :: quote_chars false k
    ++ 34 :: 58 :: JSON.stringify x ++ stringify_members false ms.
Proof.
  cbn [stringify_members]. unfold QuoteJSONString.
  destruct first; cbn [app]; by rewrite <- !app_assoc.
Qed.

Lemma stringify_elements_cons first x xs :
  stringify_elements first (x :: xs)
  = (if first then [] else [44]) ++ JSON.stringify x
    ++ stringify_elements false xs.
Proof. reflexivity. Qed.

Lemma JSON_stringify_head (v : json) :
  number_free v = true ->
  exists c t, JSON.stringify v = c :: t /\ opens_value c.
Proof.
  unfold opens_value. destruct v as [|[|]| | | |]; intros H; try discriminate;
    eexists _, _; (split; [reflexivity|]); tauto.
Qed.

Lemma parse_roundtrip (n : nat) :
  (forall v rest,
     (json_size v <= n)%nat -> number_free v = true ->
     parse_value n (JSON.stringify v ++ rest) = Some (v, rest))
  /\ (forall k x ms rest,
        (size_members ((k, x) :: ms) <= n)%nat ->
        number_free_members ((k, x) :: ms) = true ->
        parse_members n (stringify_members true ((k, x) :: ms) ++ 125 :: rest)
        = Some ((k, x) :: ms, rest))
  /\ (forall x xs rest,
        (size_elements (x :: xs) <= n)%nat ->
        number_free_elements (x :: xs) = true ->
        parse_elements n (stringify_elements true (x :: xs) ++ 93 :: rest)
        = Some (x :: xs, rest)).
Proof.
  induction n as [|n (IHv & IHm & IHe)].
  { split; [|split].
    - intros v rest H. destruct v; simpl in H; lia.
    - intros k x ms rest H. simpl in H. lia.
    - intros x xs rest H. simpl in H. lia. }
  split; [|split].
  - intros v rest Hsize Hfree.
    destruct v as [|[|]|lit|s|xs|ms]; try reflexivity; try discriminate.
    + (* string *)
      unfold JSON.stringify, QuoteJSONString. flatten_text.
      cbn [parse_value]. read_text.
      by rewrite parse_chars_quote_chars.
    + (* array *)
      rewrite JSON_stringify_array.
      destruct xs as [|x xs]; [reflexivity|].
      change (json_size (JArray (x :: xs))) with (S (size_elements (x :: xs)))
        in Hsize.
      change (number_free (JArray (x :: xs)))
        with (number_free_elements (x :: xs)) in Hfree.
      pose proof (IHe x xs rest ltac:(lia) Hfree) as He.
      assert (Hx : number_free x = true)
        by (cbn in Hfree; by apply andb_true_iff in Hfree as [? _]).
      destruct (JSON_stringify_head x Hx) as (c & t & Ht & Hc).
      rewrite stringify_elements_cons in *. rewrite Ht in *.
      flatten_text. cbn [parse_value]. read_text.
      revert He. flatten_text. intros He.
      destruct Hc as [-> | [-> | [-> | [-> | [-> | ->]]]]];
        read_text; by rewrite He.
    + (* object *)
      rewrite JSON_stringify_object.
      destruct ms as [|[k x] ms]; [reflexivity|].
      change (json_size (JObject ((k, x) :: ms)))
        with (S (size_members ((k, x) :: ms))) in Hsize.
      change (number_free (JObject ((k, x) :: ms)))
        with (number_free_members ((k, x) :: ms)) in Hfree.
      pose proof (IHm k x ms rest ltac:(lia) Hfree) as Hm.
      rewrite stringify_members_cons in *.
      flatten_text. cbn [parse_value]. read_text.
      revert Hm. flatten_text. intros Hm. by rewrite Hm.
  - intros k x ms rest Hsize Hfree.
    rewrite stringify_members_cons. flatten_text. cbn [parse_members].
    read_text.
    rewrite parse_chars_quote_chars by discriminate. read_text.
    assert (Hx : number_free x = true)
      by (cbn in Hfree; by apply andb_true_iff in Hfree as [? _]).
    assert (Hms : number_free_members ms = true)
      by (cbn in Hfree; by apply andb_true_iff in Hfree as [_ ?]).
    cbn [size_members] in Hsize.
    destruct (JSON_stringify_head x Hx) as (c & t & Ht & Hc).
    assert (Hskip : skip_ws (JSON.stringify x ++ stringify_members false ms
                             ++ 125 :: rest)
                    = JSON.stringify x ++ stringify_members false ms
                      ++ 125 :: rest).
    { rewrite Ht. destruct Hc as [-> | [-> | [-> | [-> | [-> | ->]]]]];
        reflexivity. }
    rewrite Hskip, (IHv x _ ltac:(lia) Hx).
    destruct ms as [|[k' x'] ms]; [reflexivity|].
    pose proof (IHm k' x' ms rest ltac:(cbn [size_members] in *; lia) Hms) as Hm.
    rewrite stringify_members_cons in *.
    flatten_text. read_text. revert Hm. flatten_text. intros Hm.
    by rewrite Hm.
  - intros x xs rest Hsize Hfree.
    rewrite stringify_elements_cons. flatten_text. cbn [parse_elements].
    assert (Hx : number_free x = true)
      by (cbn in Hfree; by apply andb_true_iff in Hfree as [? _]).
    assert (Hxs : number_free_elements xs = true)
      by (cbn in Hfree; by apply andb_true_iff in Hfree as [_ ?]).
    cbn [size_elements] in Hsize.
    rewrite (IHv x _ ltac:(lia) Hx).
    destruct xs as [|x' xs]; [reflexivity|].
    pose proof (IHe x' xs rest ltac:(cbn [size_elements] in *; lia) Hxs) as He.
    assert (Hx' : number_free x' = true)
      by (cbn in Hxs; by apply andb_true_iff in Hxs as [? _]).
    destruct (JSON_stringify_head x' Hx') as (c & t & Ht & Hc).
    rewrite stringify_elements_cons in *. rewrite Ht in *.
    flatten_text. revert He. flatten_text. intros He.
    destruct Hc as [-> | [-> | [-> | [-> | [-> | ->]]]]];
      read_text; by rewrite He.
Qed.

(** ** The fuel of [JSON.parse] is enough *)

Lemma skip_ws_length (s : jsstring) : (length (skip_ws s) <= length s)%nat.
Proof.
  induction s as [|c s IH]; [done|]. simpl.
  destruct (is_json_ws c); simpl; lia.
Qed.

Lemma starts_with_length c s r :
  starts_with c s = Some r -> length s = S (length r).
Proof.
  destruct s as [|c' s]; [discriminate|]. simpl.
  destruct (c' =? c); [|discriminate]. by intros [= ->].
Qed.

Lemma prepend_Some c p w r :
  prepend c p = Some (w, r) -> exists w', p = Some (w', r) /\ w = c :: w'.
Proof.
  destruct p as [[w' r']|]; simpl; [|discriminate].
  intros [= <- <-]. eauto.
Qed.

Lemma parse_chars_length_bounded (n : nat) : forall s w r,
  (length s <= n)%nat -> parse_chars s = Some (w, r) ->
  (length r < length s)%nat.
Proof.
  induction n as [|n IH]; intros s w r Hn H.
  { destruct s; [discriminate | simpl in Hn; lia]. }
  destruct s as [|c s]; [discriminate|]. cbn [parse_chars] in H.
  destruct (c =? 34); [inversion H; subst; simpl; lia|].
  destruct (c =? 92).
  - destruct s as [|e s1]; [discriminate|].
    destruct (e =? 117).
    + destruct s1 as [|h1 [|h2 [|h3 [|h4 s2]]]]; try discriminate.
      destruct (hex4 h1 h2 h3 h4); [|discriminate].
      apply prepend_Some in H as (w' & H & _).
      apply IH in H; simpl in *; lia.
    + destruct (simple_escape e); [|discriminate].
      apply prepend_Some in H as (w' & H & _).
      apply IH in H; simpl in *; lia.
  - destruct (c <? 32); [discriminate|].
    apply prepend_Some in H as (w' & H & _).
    apply IH in H; simpl in *; lia.
Qed.

Lemma parse_chars_length s w r :
  parse_chars s = Some (w, r) -> (length r < length s)%nat.
Proof. by apply (parse_chars_length_bounded (length s)). Qed.

Lemma expect_length word : forall s r,
  expect word s = Some r -> (length r <= length s)%nat.
Proof.
  induction word as [|w word IH]; intros s r H.
  - destruct s; inversion H; subst; done.
  - destruct s as [|c s]; [discriminate|]. simpl in H.
    destruct (c =? w); [|discriminate]. apply IH in H. simpl. lia.
Qed.

Lemma take_digits_length s ds r :
  take_digits s = (ds, r) -> (length r <= length s)%nat.
Proof.
  revert ds r. induction s as [|c s IH]; intros ds r H; simpl in H.
  - by inversion H.
  - destruct (is_digit c).
    + destruct (take_digits s) as [ds' r'] eqn:E. inversion H; subst.
      pose proof (IH _ _ eq_refl). simpl. lia.
    + inversion H; subst. done.
Qed.

Lemma parse_number_length s lit r :
  parse_number s = Some (lit, r) -> (length r <= length s)%nat.
Proof.
  unfold parse_number.
  destruct (parse_sign s) as [sign s1] eqn:E1.
  destruct (parse_int s1) as [[int s2]|] eqn:E2; [|discriminate].
  destruct (parse_frac s2) as [[frac s3]|] eqn:E3; [|discriminate].
  destruct (parse_exp s3) as [[ex s4]|] eqn:E4; [|discriminate].
  intros [= <- <-].
  assert (H1 : (length s1 <= length s)%nat).
  { unfold parse_sign in E1. destruct s as [|c s]; [by inversion E1|].
    destruct (c =? 45); inversion E1; subst; simpl; lia. }
  assert (H2 : (length s2 <= length s1)%nat).
  { unfold parse_int in E2. destruct s1 as [|c t]; [discriminate|].
    destruct (c =? 48); [inversion E2; subst; simpl; lia|].
    destruct (is_digit c); [|discriminate].
    assert (E : take_digits (c :: t) = (int, s2)) by congruence.
    by apply take_digits_length in E. }
  assert (H3 : (length s3 <= length s2)%nat).
  { unfold parse_frac in E3. destruct s2 as [|c t]; [by inversion E3|].
    destruct (c =? 46); [|by inversion E3].
    destruct (take_digits t) as [[|d ds] rest] eqn:E; [discriminate|].
    inversion E3; subst. apply take_digits_length in E. simpl. lia. }
  assert (H4 : (length s4 <= length s3)%nat).
  { unfold parse_exp in E4. destruct s3 as [|e t]; [by inversion E4|].
    destruct ((e =? 101) || (e =? 69)); [|by inversion E4].
    destruct t as [|x t'].
    - simpl in E4. discriminate.
    - destruct ((x =? 43) || (x =? 45)).
      + destruct (take_digits t') as [[|d ds] rest] eqn:E; [discriminate|].
        inversion E4; subst. apply take_digits_length in E. simpl. lia.
      + destruct (take_digits (x :: t')) as [[|d ds] rest] eqn:E;
          [discriminate|].
        inversion E4; subst. apply take_digits_length in E. simpl in *. lia. }
  lia.
Qed.

(** A parse that succeeds with some fuel leaves a rest no longer than the
    text, and succeeds alike with any fuel above the number of characters
    it has read. *)
Lemma parse_fuel (n : nat) :
  (forall s v r,
     parse_value n s = Some (v, r) ->
     (length r <= length s)%nat
     /\ forall m, (length s - length r < m)%nat ->
                  parse_value m s = Some (v, r))
  /\ (forall s ms r,
        parse_members n s = Some (ms, r) ->
        (length r <= length s)%nat
        /\ forall m, (length s - length r < m)%nat ->
                     parse_members m s = Some (ms, r))
  /\ (forall s xs r,
        parse_elements n s = Some (xs, r) ->
        (length r <= length s)%nat
        /\ forall m, (length s - length r < m)%nat ->
                     parse_elements m s = Some (xs, r)).
Proof.
  induction n as [|n (IHv & IHm & IHe)]; [by repeat split|].
  split; [|split].
  - intros s v r H. cbn [parse_value] in H.
    destruct s as [|c s0]; [discriminate|].
    destruct (c =? 123) eqn:E1.
    { pose proof (skip_ws_length s0) as Hw.
      destruct (starts_with 125 (skip_ws s0)) as [r'|] eqn:E2.
      - inversion H; subst. apply starts_with_length in E2 as L.
        split; [simpl; lia|]. intros [|m] Hm; [lia|].
        cbn [parse_value]. by rewrite E1, E2.
      - destruct (parse_members n (skip_ws s0)) as [[ms rest]|] eqn:E3;
          [|discriminate].
        inversion H; subst. destruct (IHm _ _ _ E3) as [L F].
        split; [simpl; lia|]. intros [|m] Hm; [lia|].
        cbn [parse_value]. rewrite E1, E2, (F m); [done|]. simpl in Hm. lia. }
    destruct (c =? 91) eqn:E2.
    { pose proof (skip_ws_length s0) as Hw.
      destruct (starts_with 93 (skip_ws s0)) as [r'|] eqn:E3.
      - inversion H; subst. apply starts_with_length in E3 as L.
        split; [simpl; lia|]. intros [|m] Hm; [lia|].
        cbn [parse_value]. by rewrite E1, E2, E3.
      - destruct (parse_elements n (skip_ws s0)) as [[xs rest]|] eqn:E4;
          [|discriminate].
        inversion H; subst. destruct (IHe _ _ _ E4) as [L F].
        split; [simpl; lia|]. intros [|m] Hm; [lia|].
        cbn [parse_value]. rewrite E1, E2, E3, (F m); [done|].
        simpl in Hm. lia. }
    destruct (c =? 34) eqn:E3.
    { destruct (parse_chars s0) as [[w rest]|] eqn:E4; [|discriminate].
      inversion H; subst. apply parse_chars_length in E4 as L.
      split; [simpl; lia|]. intros [|m] Hm; [lia|].
      cbn [parse_value]. by rewrite E1, E2, E3, E4. }
    destruct (c =? 110) eqn:E4.
    { destruct (expect (js "ull") s0) as [rest|] eqn:E5; [|discriminate].
      inversion H; subst. apply expect_length in E5 as L.
      split; [simpl; lia|]. intros [|m] Hm; [lia|].
      cbn [parse_value]. by rewrite E1, E2, E3, E4, E5. }
    destruct (c =? 116) eqn:E5.
    { destruct (expect (js "rue") s0) as [rest|] eqn:E6; [|discriminate].
      inversion H; subst. apply expect_length in E6 as L.
      split; [simpl; lia|]. intros [|m] Hm; [lia|].
      cbn [parse_value]. by rewrite E1, E2, E3, E4, E5, E6. }
    destruct (c =? 102) eqn:E6.
    { destruct (expect (js "alse") s0) as [rest|] eqn:E7; [|discriminate].
      inversion H; subst. apply expect_length in E7 as L.
      split; [simpl; lia|]. intros [|m] Hm; [lia|].
      cbn [parse_value]. by rewrite E1, E2, E3, E4, E5, E6, E7. }
    destruct (parse_number (c :: s0)) as [[lit rest]|] eqn:E7; [|discriminate].
    inversion H; subst. apply parse_number_length in E7 as L.
    split; [exact L|]. intros [|m] Hm; [lia|].
    cbn [parse_value]. by rewrite E1, E2, E3, E4, E5, E6, E7.
  - intros s ms r H. cbn [parse_members] in H.
    destruct (starts_with 34 s) as [s1|] eqn:E1; [|discriminate].
    destruct (parse_chars s1) as [[k r1]|] eqn:E2; [|discriminate].
    destruct (starts_with 58 (skip_ws r1)) as [r2|] eqn:E3; [|discriminate].
    destruct (parse_value n (skip_ws r2)) as [[x r3]|] eqn:E4; [|discriminate].
    apply starts_with_length in E1 as L1.
    apply parse_chars_length in E2 as L2.
    apply starts_with_length in E3 as L3.
    destruct (IHv _ _ _ E4) as [L4 F4].
    pose proof (skip_ws_length r1). pose proof (skip_ws_length r2).
    pose proof (skip_ws_length r3).
    destruct (starts_with 125 (skip_ws r3)) as [rest|] eqn:E5.
    { inversion H; subst. apply starts_with_length in E5 as L5.
      split; [lia|]. intros [|m] Hm; [lia|].
      cbn [parse_members]. rewrite E1, E2, E3, (F4 m), E5; [done|]. lia. }
    destruct (starts_with 44 (skip_ws r3)) as [r4|] eqn:E6; [|discriminate].
    destruct (parse_members n (skip_ws r4)) as [[ms' rest]|] eqn:E7;
      [|discriminate].
    inversion H; subst. apply starts_with_length in E6 as L6.
    destruct (IHm _ _ _ E7) as [L7 F7]. pose proof (skip_ws_length r4).
    split; [lia|]. intros [|m] Hm; [lia|].
    cbn [parse_members].
    rewrite E1, E2, E3, (F4 m), E5, E6, (F7 m); [done|lia|lia].
  - intros s xs r H. cbn [parse_elements] in H.
    destruct (parse_value n s) as [[x r1]|] eqn:E1; [|discriminate].
    destruct (IHv _ _ _ E1) as [L1 F1]. pose proof (skip_ws_length r1).
    destruct (starts_with 93 (skip_ws r1)) as [rest|] eqn:E2.
    { inversion H; subst. apply starts_with_length in E2 as L2.
      split; [lia|]. intros [|m] Hm; [lia|].
      cbn [parse_elements]. rewrite (F1 m), E2; [done|]. lia. }
    destruct (starts_with 44 (skip_ws r1)) as [r2|] eqn:E3; [|discriminate].
    destruct (parse_elements n (skip_ws r2)) as [[xs' rest]|] eqn:E4;
      [|discriminate].
    inversion H; subst. apply starts_with_length in E3 as L3.
    destruct (IHe _ _ _ E4) as [L4 F4]. pose proof (skip_ws_length r2).
    split; [lia|]. intros [|m] Hm; [lia|].
    cbn [parse_elements]. rewrite (F1 m), E2, E3, (F4 m); [done|lia|lia].
Qed.

(** The fuel [JSON.parse] gives is enough for every text: if any amount of
    fuel reads a value off the text, so does that of [JSON.parse].  So
    [JSON.parse text = None] says that the text is not JSON. *)
Lemma JSON_parse_fuel (text : jsstring) (n : nat) (v : json) (r : jsstring) :
  parse_value n (skip_ws text) = Some (v, r) ->
  parse_value (2 * length text + 2) (skip_ws text) = Some (v, r).
Proof.
  intros H. destruct (proj1 (parse_fuel n) _ _ _ H) as [L F].
  apply F. pose proof (skip_ws_length text). lia.
Qed.

Lemma size_le_length (n : nat) :
  (forall v, (json_size v <= n)%nat -> number_free v = true ->
     (S (json_size v) <= length (JSON.stringify v))%nat)
  /\ (forall ms first, (size_members ms <= n)%nat ->
        number_free_members ms = true ->
        (size_members ms <= length (stringify_members first ms))%nat)
  /\ (forall xs first, (size_elements xs <= n)%nat ->
        number_free_elements xs = true ->
        (size_elements xs <= length (stringify_elements first xs))%nat).
Proof.
  induction n as [|n (IHv & IHm & IHe)].
  { split; [|split].
    - intros v H. destruct v; simpl in H; lia.
    - intros [|[k x] ms] first H; simpl in *; lia.
    - intros [|x xs] first H; simpl in *; lia. }
  split; [|split].
  - intros v Hsize Hfree.
    destruct v as [|[|]|lit|s|xs|ms]; try discriminate; try (simpl; lia).
    + unfold JSON.stringify, QuoteJSONString. cbn [length json_size].
      rewrite length_app. simpl. lia.
    + rewrite JSON_stringify_array.
      change (json_size (JArray xs)) with (S (size_elements xs)) in *.
      pose proof (IHe xs true ltac:(lia) Hfree).
      cbn [length]. rewrite length_app. simpl. lia.
    + rewrite JSON_stringify_object.
      change (json_size (JObject ms)) with (S (size_members ms)) in *.
      pose proof (IHm ms true ltac:(lia) Hfree).
      cbn [length]. rewrite length_app. simpl. lia.
  - intros [|[k x] ms] first Hsize Hfree; [simpl; lia|].
    rewrite stringify_members_cons. cbn [size_members] in *.
    cbn in Hfree. apply andb_true_iff in Hfree as [Hx Hms].
    pose proof (IHv x ltac:(lia) Hx).
    pose proof (IHm ms false ltac:(lia) Hms).
    rewrite !length_app. cbn [length]. rewrite !length_app. cbn [length].
    rewrite !length_app. lia.
  - intros [|x xs] first Hsize Hfree; [simpl; lia|].
    rewrite stringify_elements_cons. cbn [size_elements] in *.
    cbn in Hfree. apply andb_true_iff in Hfree as [Hx Hxs].
    pose proof (IHv x ltac:(lia) Hx).
    pose proof (IHe xs false ltac:(lia) Hxs).
    rewrite !length_app. lia.
Qed.

(** [JSON.parse(JSON.stringify(v))] is [v], for every value without a
    number. *)
Lemma JSON_parse_stringify (v : json) :
  number_free v = true -> JSON.parse (JSON.stringify v) = Some v.
Proof.
  intros Hfree. unfold JSON.parse.
  destruct (JSON_stringify_head v Hfree) as (c & t & Ht & Hc).
  assert (Hskip : skip_ws (JSON.stringify v) = JSON.stringify v).
  { rewrite Ht. destruct Hc as [-> | [-> | [-> | [-> | [-> | ->]]]]];
      reflexivity. }
  rewrite Hskip.
  pose proof (proj1 (size_le_length (json_size v)) v ltac:(lia) Hfree) as Hlen.
  pose proof (proj1 (parse_roundtrip (2 * length (JSON.stringify v) + 2)) v []
                ltac:(lia) Hfree) as Hp.
  rewrite app_nil_r in Hp. by rewrite Hp.
Qed.

(** ** A store as a JSON value *)

Lemma as_VisitLog_to_json (d : VisitLog) :
  as_VisitLog (VisitLog_to_json d) = Some d.
Proof.
  destruct d as [c dt [i|] [ca|] [h|] [g|]]; vm_compute; reflexivity.
Qed.

Lemma number_free_VisitLog (d : VisitLog) :
  number_free (VisitLog_to_json d) = true.
Proof. destruct d as [c dt [i|] [ca|] [h|] [g|]]; reflexivity. Qed.

Lemma number_free_VisitMap (m : VisitMap) :
  number_free (VisitMap_to_json m) = true.
Proof.
  unfold VisitMap_to_json.
  change (number_free (JObject ?ms)) with (number_free_members ms).
  induction (map_to_list m) as [|[k d] l IH]; [reflexivity|].
  rewrite fmap_cons.
  change (number_free (VisitLog_to_json d)
          && number_free_members
               ((fun kd => (kd.1, VisitLog_to_json kd.2)) <$> l) = true).
  by rewrite number_free_VisitLog, IH.
Qed.

Lemma members_to_VisitMap_to_json (l : list (jsstring * VisitLog)) :
  forall acc : VisitMap,
    members_to_VisitMap ((fun kd => (kd.1, VisitLog_to_json kd.2)) <$> l) acc
    = Some (list_to_map (reverse l) ∪ acc).
Proof.
  induction l as [|[k d] l IH]; intros acc.
  - simpl. by rewrite (left_id_L ∅ (∪)).
  - rewrite fmap_cons. cbn [members_to_VisitMap fst snd].
    rewrite as_VisitLog_to_json, IH. f_equal.
    rewrite reverse_cons, list_to_map_app. simpl.
    rewrite <- (assoc_L (∪)). f_equal.
    rewrite (insert_union_singleton_l acc). f_equal.
Qed.

(** Reading the JSON value of a store as a store gives the store. *)
Lemma as_VisitMap_to_json (m : VisitMap) :
  as_VisitMap (VisitMap_to_json m) = Some m.
Proof.
  unfold as_VisitMap, VisitMap_to_json.
  rewrite members_to_VisitMap_to_json, (right_id_L ∅ (∪)). f_equal.
  rewrite <- (list_to_map_to_list m) at 2.
  apply list_to_map_proper.
  - rewrite fmap_reverse, reverse_Permutation. apply NoDup_fst_map_to_list.
  - apply reverse_Permutation.
Qed.

Lemma serialize_truthy (m : VisitMap) : truthy (Some (serialize m)) = true.
Proof. reflexivity. Qed.

(** The round trip through [localStorage]: what the mount effect reads from
    the text a save wrote is the store that was saved. *)
Lemma load_serialize (m : VisitMap) :
  load (Some (serialize m)) = VisitMap_to_json m
  /\ as_VisitMap (load (Some (serialize m))) = Some m.
Proof.
  assert (H : load (Some (serialize m)) = VisitMap_to_json m).
  { unfold load. rewrite serialize_truthy. simpl. unfold serialize.
    by rewrite JSON_parse_stringify by apply number_free_VisitMap. }
  split; [exact H|]. rewrite H. apply as_VisitMap_to_json.
Qed.

(** ** Loading and saving *)

Lemma load_effect_returns (savedData : option jsstring) :
  load_effect savedData = Returns (load savedData).
Proof.
  unfold load_effect, load, JSON_parse_stmt.
  destruct (truthy savedData); [|reflexivity].
  by destruct (JSON.parse (default [] savedData)).
Qed.

(** C8, as the mount effect does it.  For every stored item the effect ends
    normally, never by an exception, with a value for [visitMap].  When the
    item is absent, when it is the empty string and when it does not parse,
    that value is the empty store.  An item that parses is installed as the
    value [JSON.parse] returned, unchecked: the component has a store after
    the effect exactly when that value has the shape of one.  The texts the
    component writes itself always have. *)
Theorem load_never_throws (savedData : option jsstring) :
  load_effect savedData = Returns (load savedData)
  /\ (savedData = None -> load savedData = JObject [])
  /\ (savedData = Some [] -> load savedData = JObject [])
  /\ (forall text, savedData = Some text -> JSON.parse text = None ->
        load savedData = JObject [])
  /\ (forall text v, savedData = Some text -> text <> [] ->
        JSON.parse text = Some v ->
        load savedData = v
        /\ (forall m, as_VisitMap v = Some m <->
                      mount savedData = Some (mounted m savedData))
        /\ (as_VisitMap v = None <-> mount savedData = None))
  /\ as_VisitMap (JObject []) = Some ∅
  /\ (forall m, savedData = Some (serialize m) ->
        mount savedData = Some (mounted m savedData)).
Proof.
  split; [apply load_effect_returns|].
  split; [by intros ->|]. split; [by intros ->|].
  split; [|split; [|split; [reflexivity|]]].
  - intros text -> Hp. unfold load. destruct (truthy (Some text)); [|done].
    simpl. by rewrite Hp.
  - intros text v -> Hne Hp.
    assert (Hl : load (Some text) = v).
    { unfold load. destruct text; [done|]. simpl. by rewrite Hp. }
    split; [exact Hl|]. unfold mount. rewrite Hl.
    destruct (as_VisitMap v) as [m0|]; split.
    + intros m. split; intros Hm; inversion Hm; subst; [done|].
      reflexivity.
    + split; intros; discriminate.
    + intros m. split; intros; discriminate.
    + done.
  - intros m ->. unfold mount.
    by rewrite (proj2 (load_serialize m)).
Qed.

(** A truncated item, as an interrupted write or a hand edit leaves it. *)
Lemma load_never_throws_witness :
  let savedData := Some (json_text "{'EW18':{'stationCode':'EW18','visi") in
  JSON.parse (json_text "{'EW18':{'stationCode':'EW18','visi") = None
  /\ load_effect savedData = Returns (JObject [])
  /\ mount savedData = Some (mounted ∅ savedData).
Proof.
  intros savedData.
  assert (Hp : JSON.parse (json_text "{'EW18':{'stationCode':'EW18','visi") = None)
    by (vm_compute; reflexivity).
  destruct (load_never_throws savedData) as (H1 & _ & _ & H4 & _).
  pose proof (H4 _ eq_refl Hp) as Hl.
  split; [exact Hp|]. split; [by rewrite H1, Hl|].
  unfold mount. by rewrite Hl.
Defined.

(** C8, as it is worded, fails on an item that parses to a value that is no
    store.  The item [null] parses; the effect installs [null] as the value
    of [visitMap], and the component has no store: the render that follows
    calls [Object.keys] on it. *)
Lemma load_of_null_is_no_store :
  JSON.parse (js "null") = Some JNull
  /\ load_effect (Some (js "null")) = Returns JNull
  /\ as_VisitMap JNull = None
  /\ mount (Some (js "null")) = None.
Proof. repeat split; vm_compute; reflexivity. Qed.

(** So does an array, or an object whose members are no records. *)
Lemma load_of_other_json_is_no_store :
  mount (Some (js "[]")) = None
  /\ mount (Some (json_text "{'EW18':'Redhill'}")) = None
  /\ mount (Some (js "17")) = None.
Proof. repeat split; vm_compute; reflexivity. Qed.

(** C1.  [saveEntry] with a draft [r] leaves a store whose entry for
    [r.stationCode] is [r] and whose other entries are those of before; the
    text it writes to [localStorage] parses back, at the next mount, to a
    store equal to that one. *)
Theorem saveEntry_lookup_and_roundtrip (st : App) (r : VisitLog) :
  tempVisit st = Some r ->
  visitMap (saveEntry st) !! stationCode r = Some r
  /\ (forall c, c <> stationCode r ->
        visitMap (saveEntry st) !! c = visitMap st !! c)
  /\ localStorage (saveEntry st) = Some (serialize (visitMap (saveEntry st)))
  /\ load_effect (localStorage (saveEntry st))
     = Returns (VisitMap_to_json (visitMap (saveEntry st)))
  /\ as_VisitMap (load (localStorage (saveEntry st)))
     = Some (visitMap (saveEntry st))
  /\ visitMap <$> mount (localStorage (saveEntry st))
     = Some (visitMap (saveEntry st)).
Proof.
  intros Hr.
  destruct (saveEntry_commits st r Hr) as (Hc & Hl & Hs & _).
  destruct (load_serialize (visitMap (saveEntry st))) as [Hj Hm].
  split; [exact Hl|]. split.
  { intros c Hne. rewrite Hc. unfold commit. by apply lookup_insert_ne. }
  split; [exact Hs|]. rewrite Hs.
  split; [by rewrite load_effect_returns, Hj|].
  split; [exact Hm|].
  unfold mount. by rewrite Hm.
Qed.

Lemma saveEntry_lookup_and_roundtrip_witness :
  let r := mkVisitLog (js "EW18") (js "2024-05-01")
             (Some (readAsDataURL photo))
             (Some (js "Morning light, " ++ [34] ++ js "quiet" ++ [34; 10; 55357; 56836]))
             None
             (Some []) in
  let st := mkApp {[ js "NS1" := mkVisitLog (js "NS1") (js "2024-04-30") None
                                   None None None ]}
              (Some (EW18, EWL)) true false false (Some r) None [] [] in
  tempVisit st = Some r
  /\ visitMap (saveEntry st) !! js "EW18" = Some r
  /\ as_VisitMap (load (localStorage (saveEntry st)))
     = Some (visitMap (saveEntry st)).
Proof.
  intros r st.
  assert (Hr : tempVisit st = Some r) by reflexivity.
  destruct (saveEntry_lookup_and_roundtrip st r Hr) as (H1 & _ & _ & _ & H5 & _).
  split; [exact Hr|]. split; [exact H1 | exact H5].
Defined.

(** The same, computed: the text written and the store read back. *)
Example saveEntry_roundtrip_computed :
  let st := mkApp ∅ (Some (EW18, EWL)) true false false (Some sample_record)
              None [] [] in
  localStorage (saveEntry st)
  = Some (json_text "{'EW18':{'stationCode':'EW18','visitedDate':'2024-05-01'}}")
  /\ as_VisitMap (load (localStorage (saveEntry st)))
     = Some {[ js "EW18" := sample_record ]}.
Proof. split; vm_compute; reflexivity. Qed.

(** * More properties of the component *)

(** ** The store and its stored copy *)

Lemma continue_keeps_store ver env t o st st' :
  continue ver env t o st = Some st' ->
  visitMap st' = visitMap st /\ localStorage st' = localStorage st.
Proof.
  intros H. by destruct (continue_frame _ _ _ _ _ _ H) as (? & ? & _).
Qed.

Lemma step_keeps_store ver env st e st' :
  step ver env st e = Some st' ->
  writes_store e = false ->
  visitMap st' = visitMap st /\ localStorage st' = localStorage st.
Proof.
  intros H Hw. destruct e; simpl in H; try discriminate;
    try (apply guard_Some in H as [_ ->]); try done.
  - unfold handleImageUpload. by repeat case_match.
  - destruct (inFlight st !! i) as [t|]; [|discriminate].
    by apply continue_keeps_store in H.
Qed.

(** X2.  Only the save and the clear buttons write the store and its stored
    copy: opening a station, closing the form, typing, selecting a file and
    every result of an operation in flight leave both as they are.  And what
    a save or a clear writes to [localStorage] is the text of the store it
    leaves. *)
Theorem only_save_and_clear_write_store ver env st e st' :
  step ver env st e = Some st' ->
  (writes_store e = false ->
   visitMap st' = visitMap st /\ localStorage st' = localStorage st)
  /\ (writes_store e = true ->
      (visitMap st' = visitMap st /\ localStorage st' = localStorage st)
      \/ localStorage st' = Some (serialize (visitMap st'))).
Proof.
  intros H. split; [by apply (step_keeps_store ver env)|].
  intros Hw. destruct e; try discriminate; simpl in H;
    apply guard_Some in H as [_ ->].
  - unfold saveEntry. destruct (tempVisit st); [by right | by left].
  - unfold deleteEntry.
    destruct (selectedStationData st) as [[s l]|]; [by right | by left].
Qed.

Lemma only_save_and_clear_write_store_witness :
  let st := mkApp {[ js "EW18" := sample_record ]} (Some (EW18, EWL)) true
              false false (Some sample_record) None [] [] in
  exists st',
    step Inline (sample_env None) st (ChangeCaption (js "new words")) = Some st'
    /\ visitMap st' = visitMap st
    /\ visitMap st' !! js "EW18" = Some sample_record.
Proof.
  intros st. eexists. split; [reflexivity|].
  destruct (proj1 (only_save_and_clear_write_store Inline (sample_env None)
                     st (ChangeCaption (js "new words")) _ eq_refl) eq_refl)
    as [H _].
  split; [exact H|]. rewrite H. vm_compute. reflexivity.
Defined.

Lemma persisted_step ver env st e st' :
  step ver env st e = Some st' -> persisted st -> persisted st'.
Proof.
  intros H P. unfold persisted in *.
  destruct (writes_store e) eqn:Hw.
  - destruct e; try discriminate; simpl in H;
      apply guard_Some in H as [_ ->].
    + unfold saveEntry. destruct (tempVisit st); [|exact P].
      simpl. apply load_serialize.
    + unfold deleteEntry. destruct (selectedStationData st) as [[s l]|];
        [|exact P].
      simpl. apply load_serialize.
  - destruct (step_keeps_store _ _ _ _ _ H Hw) as [-> ->]. exact P.
Qed.

Lemma persisted_run ver env es : forall st st',
  run ver env st es = Some st' -> persisted st -> persisted st'.
Proof.
  induction es as [|e es IH]; simpl; intros st st' H P.
  - by inversion H; subst.
  - destruct (step ver env st e) as [st1|] eqn:E; [|discriminate].
    eapply IH; [exact H|]. by eapply persisted_step.
Qed.

Lemma mount_Some savedData st0 :
  mount savedData = Some st0 ->
  exists m, as_VisitMap (load savedData) = Some m /\ st0 = mounted m savedData.
Proof.
  unfold mount. destruct (as_VisitMap (load savedData)) as [m|];
    [|discriminate].
  intros [= <-]. eauto.
Qed.

(** A write that the storage takes is the write of [saveEntry] and
    [deleteEntry]. *)
Lemma step_within_accepted accepts ver env st e :
  write_refused accepts st e = false ->
  step_within accepts ver env st e = step ver env st e.
Proof.
  intros Hw. destruct e; try reflexivity; simpl in *.
  - unfold saveEntry_within, saveEntry.
    destruct (tempVisit st); [|done].
    apply negb_false_iff in Hw. by rewrite Hw.
  - unfold deleteEntry_within, deleteEntry.
    destruct (selectedStationData st) as [[s l]|]; [|done].
    apply negb_false_iff in Hw. by rewrite Hw.
Qed.

Lemma run_within_accepted accepts ver env es : forall st,
  refused accepts ver env st es = false ->
  run_within accepts ver env st es = run ver env st es.
Proof.
  induction es as [|e es IH]; simpl; intros st Hr; [done|].
  apply orb_false_iff in Hr as [Hw Hr].
  rewrite step_within_accepted in * by done.
  destruct (step ver env st e) as [st1|]; [by apply IH | done].
Qed.

(** X1.  Let the stored item at the mount read as a store.  After any
    sequence of events in which the storage refuses no write, in either
    component, the item in [localStorage] reads back, at the next mount, as
    the store the component holds.  A save that the storage refuses then
    puts the two apart: the store has the new record, the item and the modal
    are as before. *)
Theorem stored_copy_follows_store accepts ver env savedData st0 es st :
  mount savedData = Some st0 ->
  run_within accepts ver env st0 es = Some st ->
  refused accepts ver env st0 es = false ->
  as_VisitMap (load (localStorage st)) = Some (visitMap st)
  /\ visitMap <$> mount (localStorage st) = Some (visitMap st)
  /\ (forall d,
        modal_shown st = true -> save_disabled ver st = false ->
        tempVisit st = Some d ->
        visitMap st !! stationCode d <> Some d ->
        accepts (serialize (commit d (visitMap st))) = false ->
        exists st',
          step_within accepts ver env st ClickSave = Some st'
          /\ visitMap st' = commit d (visitMap st)
          /\ localStorage st' = localStorage st
          /\ isModalOpen st' = true
          /\ as_VisitMap (load (localStorage st')) = Some (visitMap st)
          /\ as_VisitMap (load (localStorage st')) <> Some (visitMap st')).
Proof.
  intros Hm Hrun Hacc. apply mount_Some in Hm as (m & Hm & ->).
  rewrite run_within_accepted in Hrun by done.
  assert (P : persisted st).
  { eapply persisted_run; [exact Hrun|]. exact Hm. }
  split; [exact P|]. unfold persisted in P.
  split; [unfold mount; by rewrite P|].
  intros d Hshown Hdis Hd Hnew Hno.
  exists (setVisitMap (commit d (visitMap st)) st).
  split.
  { simpl. rewrite Hshown, Hdis. simpl.
    unfold saveEntry_within. by rewrite Hd, Hno. }
  split; [done|]. split; [done|].
  split; [simpl; unfold modal_shown in Hshown;
          by apply andb_true_iff in Hshown as [? _]|].
  split; [exact P|]. simpl. rewrite P. intros [= Heq].
  apply Hnew. rewrite Heq at 1. unfold commit. apply lookup_insert_eq.
Qed.

(** A storage that takes texts of up to 200 characters, and a run whose
    writes all fit. *)
Lemma stored_copy_follows_store_witness :
  let accepts := fun text : jsstring => (length text <=? 200)%nat in
  let es := [StationClick EW18 EWL (js "2024-05-01");
             ChangeCaption (js "Quiet morning"); ClickSave;
             StationClick NS1 NSL (js "2024-05-02"); ClickSave;
             StationClick EW18 EWL (js "2024-05-03"); ClickClear] in
  exists st0 st,
    mount None = Some st0
    /\ run_within accepts Cloudinary (sample_env None) st0 es = Some st
    /\ refused accepts Cloudinary (sample_env None) st0 es = false
    /\ visitMap <$> mount (localStorage st) = Some (visitMap st).
Proof.
  intros accepts es. eexists _, _. split; [reflexivity|].
  assert (Hr : run_within accepts Cloudinary (sample_env None)
                 (mounted ∅ None) es
               = Some (mkApp {[ js "NS1" := mkVisitLog (js "NS1")
                                              (js "2024-05-02") None None
                                              None None ]}
                         (Some (EW18, EWL)) false false false
                         (Some (with_caption (js "Quiet morning")
                                  sample_record))
                         (Some (serialize
                                  {[ js "NS1" := mkVisitLog (js "NS1")
                                                   (js "2024-05-02") None
                                                   None None None ]}))
                         [] [])).
  { vm_compute. reflexivity. }
  assert (Ha : refused accepts Cloudinary (sample_env None) (mounted ∅ None)
                 es = false).
  { vm_compute. reflexivity. }
  split; [exact Hr|]. split; [exact Ha|].
  exact (proj1 (proj2 (stored_copy_follows_store accepts Cloudinary
                         (sample_env None) None _ _ _ eq_refl Hr Ha))).
Defined.

(** A storage that takes 60 characters: the first record fits, the second
    save is refused, and the page holds two records over a stored item of
    one. *)
Lemma refused_write_parts_store_and_copy :
  let accepts := fun text : jsstring => (length text <=? 60)%nat in
  let es := [StationClick EW18 EWL (js "2024-05-01"); ClickSave;
             StationClick NS1 NSL (js "2024-05-02"); ClickSave] in
  exists st,
    run_within accepts Inline (sample_env None) (mounted ∅ None) es = Some st
    /\ refused accepts Inline (sample_env None) (mounted ∅ None) es = true
    /\ size (visitMap st) = 2%nat
    /\ isModalOpen st = true
    /\ (visitMap <$> mount (localStorage st))
       = Some {[ js "EW18" := sample_record ]}.
Proof.
  intros accepts es. eexists. split; [vm_compute; reflexivity|].
  repeat split; vm_compute; reflexivity.
Qed.

(** X3.  Clearing an entry and loading the page again: the store read back is
    the old one without the code of the selected station. *)
Theorem cleared_entry_stays_cleared st station line :
  selectedStationData st = Some (station, line) ->
  visitMap <$> mount (localStorage (deleteEntry st))
  = Some (delete (code station) (visitMap st))
  /\ forall st', mount (localStorage (deleteEntry st)) = Some st' ->
       visitMap st' !! code station = None.
Proof.
  intros Hsel.
  assert (H : visitMap <$> mount (localStorage (deleteEntry st))
              = Some (delete (code station) (visitMap st))).
  { unfold deleteEntry. rewrite Hsel. simpl. unfold mount, remove.
    by rewrite (proj2 (load_serialize _)). }
  split; [exact H|]. intros st' Hst'. rewrite Hst' in H. simpl in H.
  inversion H as [H1]. rewrite H1. apply lookup_delete_eq.
Qed.

Lemma cleared_entry_stays_cleared_witness :
  let st := mkApp (<[ js "NS1" := mkVisitLog (js "NS1") (js "2024-05-02") None
                                    None None None ]>
                     {[ js "EW18" := sample_record ]})
              (Some (NS1, NSL)) true false false None None [] [] in
  selectedStationData st = Some (NS1, NSL)
  /\ visitMap <$> mount (localStorage (deleteEntry st))
     = Some {[ js "EW18" := sample_record ]}.
Proof.
  intros st.
  assert (Hs : selectedStationData st = Some (NS1, NSL)) by reflexivity.
  split; [exact Hs|].
  rewrite (proj1 (cleared_entry_stays_cleared st NS1 NSL Hs)).
  vm_compute. reflexivity.
Defined.

(** ** The draft and the station shown *)

Lemma keyed_mounted (m : VisitMap) savedData :
  (forall c d, m !! c = Some d -> stationCode d = c) ->
  keyed (mounted m savedData).
Proof. intros Hm. split; simpl; [exact Hm | discriminate]. Qed.

Lemma patch_is_Some (f : VisitLog -> VisitLog) (prev : option VisitLog) :
  is_Some (patch f prev) <-> is_Some prev.
Proof. destruct prev; simpl; split; intros [? ?]; by eauto. Qed.

Lemma draft_iff_selected_frame st st' :
  (is_Some (tempVisit st') <-> is_Some (tempVisit st)) ->
  selectedStationData st' = selectedStationData st ->
  draft_iff_selected st -> draft_iff_selected st'.
Proof. unfold draft_iff_selected. intros H1 H2. rewrite H1, H2. done. Qed.

Lemma handleImageUpload_keeps_draft ver file st :
  tempVisit (handleImageUpload ver file st) = tempVisit st
  /\ selectedStationData (handleImageUpload ver file st)
     = selectedStationData st.
Proof.
  unfold handleImageUpload.
  destruct file, (tempVisit st) eqn:E, ver; simpl; by rewrite ?E.
Qed.

Lemma saveEntry_keeps_draft st :
  tempVisit (saveEntry st) = tempVisit st
  /\ selectedStationData (saveEntry st) = selectedStationData st.
Proof. unfold saveEntry. destruct (tempVisit st) eqn:E; simpl; by rewrite ?E. Qed.

Lemma deleteEntry_keeps_draft st :
  tempVisit (deleteEntry st) = tempVisit st
  /\ selectedStationData (deleteEntry st) = selectedStationData st.
Proof.
  unfold deleteEntry.
  destruct (selectedStationData st) as [[s l]|] eqn:E; simpl; by rewrite ?E.
Qed.

Lemma draft_iff_selected_step ver env st e st' :
  step ver env st e = Some st' ->
  draft_iff_selected st -> draft_iff_selected st'.
Proof.
  intros H D. destruct e; simpl in H;
    try (apply guard_Some in H as [_ ->]);
    try (apply (draft_iff_selected_frame st); [|done|done]; simpl;
         first [done | apply patch_is_Some]).
  - unfold draft_iff_selected. simpl. split; intros _; eauto.
  - destruct (handleImageUpload_keeps_draft ver file st) as [H1 H2].
    apply (draft_iff_selected_frame st); [by rewrite H1|done|done].
  - destruct (saveEntry_keeps_draft st) as [H1 H2].
    apply (draft_iff_selected_frame st); [by rewrite H1|done|done].
  - destruct (deleteEntry_keeps_draft st) as [H1 H2].
    apply (draft_iff_selected_frame st); [by rewrite H1|done|done].
  - destruct (inFlight st !! i) as [t|]; [|discriminate].
    destruct (continue_frame _ _ _ _ _ _ H) as (_ & _ & Hs & _ & f & Hf & _).
    apply (draft_iff_selected_frame st); [|done|done].
    rewrite Hf. simpl. apply patch_is_Some.
Qed.

Lemma draft_iff_selected_run ver env es : forall st st',
  run ver env st es = Some st' ->
  draft_iff_selected st -> draft_iff_selected st'.
Proof.
  induction es as [|e es IH]; simpl; intros st st' H D.
  - by inversion H; subst.
  - destruct (step ver env st e) as [st1|] eqn:E; [|discriminate].
    eapply IH; [exact H|]. by eapply draft_iff_selected_step.
Qed.

Lemma selected_in_catalog_step ver env st e st' :
  step ver env st e = Some st' ->
  (forall s l, selectedStationData st = Some (s, l) ->
     code s ∈ catalog_codes (MRT_LINES env)) ->
  forall s l, selectedStationData st' = Some (s, l) ->
    code s ∈ catalog_codes (MRT_LINES env).
Proof.
  intros H Hsel s l. destruct e; simpl in H;
    try (apply guard_Some in H as [Hg ->]); try (by apply Hsel).
  - simpl. intros Hx. inversion Hx; subst. by eapply bubble_shown_in_catalog.
  - unfold handleImageUpload. repeat case_match; by apply Hsel.
  - unfold saveEntry. destruct (tempVisit st); by apply Hsel.
  - assert (Hk : selectedStationData (deleteEntry st)
                 = selectedStationData st).
    { unfold deleteEntry.
      destruct (selectedStationData st) as [[? ?]|] eqn:E; simpl; done. }
    rewrite Hk. by apply Hsel.
  - destruct (inFlight st !! i) as [t|]; [|discriminate].
    apply within_catalog_continue in H as [_ ->]. by apply Hsel.
Qed.

Lemma selected_in_catalog_run ver env es : forall st st',
  run ver env st es = Some st' ->
  (forall s l, selectedStationData st = Some (s, l) ->
     code s ∈ catalog_codes (MRT_LINES env)) ->
  forall s l, selectedStationData st' = Some (s, l) ->
    code s ∈ catalog_codes (MRT_LINES env).
Proof.
  induction es as [|e es IH]; simpl; intros st st' H Hsel.
  - by inversion H; subst.
  - destruct (step ver env st e) as [st1|] eqn:E; [|discriminate].
    eapply IH; [exact H|]. by eapply selected_in_catalog_step.
Qed.

(** X4.  Let no station of the catalog have the name of a property of
    [Object.prototype] as its code.  Whenever the form is shown there is a
    draft, and it is a record of the station in the title of the form, a
    station of the catalog, at which the read of [handleStationClick] found
    the own entry or nothing; a click on the save button, when the button is
    enabled, puts that draft into the store under the code of that station.
    This holds after any sequence of events from a store whose records sit
    under their own codes. *)
Theorem form_shows_draft_of_selected_station ver env m savedData es st :
  plain_codes (MRT_LINES env) = true ->
  (forall c d, m !! c = Some d -> stationCode d = c) ->
  run ver env (mounted m savedData) es = Some st ->
  modal_shown st = true ->
  exists station line d,
    selectedStationData st = Some (station, line)
    /\ tempVisit st = Some d
    /\ stationCode d = code station
    /\ code station ∈ catalog_codes (MRT_LINES env)
    /\ (forall visitMap,
          get_property visitMap (code station)
          = own_entry visitMap (code station))
    /\ (save_disabled ver st = false ->
        exists st', step ver env st ClickSave = Some st'
                    /\ visitMap st' !! code station = Some d).
Proof.
  intros Hplain Hm Hrun Hshown.
  pose proof (keyed_run _ _ _ _ _ Hrun (keyed_mounted m savedData Hm))
    as [_ Kd].
  assert (D : draft_iff_selected st).
  { eapply draft_iff_selected_run; [exact Hrun|].
    unfold draft_iff_selected. simpl. split; intros [? ?]; discriminate. }
  unfold modal_shown in Hshown. apply andb_true_iff in Hshown as [Ho Hs].
  apply bool_decide_eq_true in Hs. apply D in Hs as [d Hd].
  destruct (Kd d Hd) as (station & line & Hsel & Hc).
  assert (Hin : code station ∈ catalog_codes (MRT_LINES env)).
  { eapply (selected_in_catalog_run ver env es _ st Hrun); [|exact Hsel].
    simpl. discriminate. }
  exists station, line, d.
  split; [done|]. split; [done|]. split; [done|]. split; [done|].
  split.
  { intros vm. apply get_property_plain. by eapply plain_codes_elem. }
  intros Hdis. exists (saveEntry st). split.
  - simpl. unfold modal_shown. rewrite Ho, Hsel, Hdis. reflexivity.
  - rewrite <- Hc. by destruct (saveEntry_commits st d Hd) as (_ & ? & _).
Qed.

Lemma form_shows_draft_of_selected_station_witness :
  exists st d,
    plain_codes (MRT_LINES (sample_env None)) = true
    /\ run Inline (sample_env None) (mounted ∅ None)
         [StationClick EW18 EWL (js "2024-05-01");
          ChangeHighlights (js "murals")] = Some st
    /\ modal_shown st = true
    /\ tempVisit st = Some d
    /\ stationCode d = js "EW18".
Proof.
  assert (Hp : plain_codes (MRT_LINES (sample_env None)) = true)
    by (vm_compute; reflexivity).
  assert (Hr : run Inline (sample_env None) (mounted ∅ None)
                 [StationClick EW18 EWL (js "2024-05-01");
                  ChangeHighlights (js "murals")]
               = Some (mkApp ∅ (Some (EW18, EWL)) true false false
                         (Some (with_highlights (js "murals") sample_record))
                         None [] [])).
  { vm_compute. reflexivity. }
  destruct (form_shows_draft_of_selected_station Inline (sample_env None) ∅
              None _ _ Hp ltac:(intros c d H; by rewrite lookup_empty in H)
              Hr eq_refl) as (station & line & d & Hsel & Hd & Hc & _).
  eexists _, d. split; [exact Hp|]. split; [exact Hr|]. split; [reflexivity|].
  split; [exact Hd|].
  simpl in Hsel. inversion Hsel; subst. exact Hc.
Defined.




(** ** Operations that fail *)

(** X7.  A rejected upload and a rejected generation leave the draft, the store,
    its stored copy, the selection and the form as they are: the local
    preview stays in the draft, and so does the caption. *)
Theorem rejection_keeps_draft_and_store ver env st i st' :
  step ver env st (Settle i Rejected) = Some st' ->
  tempVisit st' = tempVisit st
  /\ visitMap st' = visitMap st
  /\ localStorage st' = localStorage st
  /\ selectedStationData st' = selectedStationData st
  /\ isModalOpen st' = isModalOpen st
  /\ inFlight st' = delete i (inFlight st).
Proof.
  simpl. destruct (inFlight st !! i) as [t|]; [|discriminate].
  destruct ver, t; simpl; intros H; inversion H; subst; done.
Qed.

Lemma rejection_keeps_draft_and_store_witness :
  let d := with_imageData (readAsDataURL photo) sample_record in
  let st := mkApp ∅ (Some (EW18, EWL)) true true false (Some d) None
              [UploadImage photo (Some (EW18, EWL))] [] in
  exists st',
    step Cloudinary (sample_env None) st (Settle 0 Rejected) = Some st'
    /\ (imageData <$> tempVisit st') = Some (Some (readAsDataURL photo)).
Proof.
  intros d st. eexists. split; [reflexivity|].
  destruct (rejection_keeps_draft_and_store Cloudinary (sample_env None) st 0
              _ eq_refl) as [H _].
  rewrite H. reflexivity.
Defined.

(** ** The two flags *)

Lemma elem_of_delete_other {A} (l : list A) (i : nat) (x t : A) :
  x ∈ l -> l !! i = Some t -> x <> t -> x ∈ delete i l.
Proof.
  intros Hx Hi Hne. apply list_elem_of_lookup in Hx as [k Hk].
  destruct (decide (k < i)%nat) as [Hlt|Hge].
  - apply (list_elem_of_lookup_2 _ k). by rewrite list_lookup_delete_lt.
  - assert (k <> i) by (intros ->; congruence).
    destruct k as [|k]; [lia|].
    apply (list_elem_of_lookup_2 _ k).
    rewrite list_lookup_delete_ge by lia. exact Hk.
Qed.

(** The first component never sets [isUploading]; in the second, the flag
    is set only while an upload is in flight. *)
Definition uploading_means_upload (ver : Version) (st : App) : Prop :=
  isUploading st = true ->
  ver = Cloudinary /\ exists file sel, UploadImage file sel ∈ inFlight st.

Lemma uploading_means_upload_frame ver st st' :
  isUploading st' = isUploading st ->
  (forall t, t ∈ inFlight st -> t ∈ inFlight st') ->
  uploading_means_upload ver st -> uploading_means_upload ver st'.
Proof.
  intros H1 H2 U Hu. rewrite H1 in Hu. destruct (U Hu) as (-> & f & sel & Hin).
  split; [done|]. exists f, sel. by apply H2.
Qed.

Lemma uploading_means_upload_step ver env st e st' :
  step ver env st e = Some st' ->
  uploading_means_upload ver st -> uploading_means_upload ver st'.
Proof.
  intros H U. destruct e; simpl in H;
    try (apply guard_Some in H as [_ ->]);
    try by apply (uploading_means_upload_frame ver st).
  - unfold handleImageUpload.
    destruct file as [f|], (tempVisit st), ver; try exact U.
    + apply (uploading_means_upload_frame Inline st); [done| |done].
      intros t Ht. simpl. apply elem_of_app. by left.
    + intros _. split; [done|]. exists f, (selectedStationData st).
      simpl. rewrite !elem_of_app, !list_elem_of_singleton. by right.
  - unfold saveEntry. destruct (tempVisit st); [|exact U].
    by apply (uploading_means_upload_frame ver st).
  - unfold deleteEntry. destruct (selectedStationData st) as [[s l]|];
      [|exact U].
    by apply (uploading_means_upload_frame ver st).
  - destruct (inFlight st !! i) as [t|] eqn:Hi; [|discriminate].
    assert (Hkeep : forall x, is_upload t = false -> is_upload x = true ->
                      x ∈ inFlight st -> x ∈ delete i (inFlight st)).
    { intros x Ht Hx Hin. eapply elem_of_delete_other; eauto.
      intros ->. congruence. }
    destruct ver, t, o; simpl in H; try discriminate;
      inversion H; subst; clear H; unfold generateCaption;
      try (intros Hu; discriminate Hu);
      repeat case_match;
      (intros Hu; destruct (U Hu) as (Hv & f0 & sel0 & Hin); split; [done|];
       exists f0, sel0; simpl; rewrite ?elem_of_app; try left;
       by apply Hkeep).
Qed.

Lemma uploading_means_upload_run ver env es : forall st st',
  run ver env st es = Some st' ->
  uploading_means_upload ver st -> uploading_means_upload ver st'.
Proof.
  induction es as [|e es IH]; simpl; intros st st' H U.
  - by inversion H; subst.
  - destruct (step ver env st e) as [st1|] eqn:E; [|discriminate].
    eapply IH; [exact H|]. by eapply uploading_means_upload_step.
Qed.

(** X8.  The save button is never disabled for nothing: after any sequence of
    events, when [isUploading] is set the component is the second one and an
    upload is in flight, and as soon as that upload is fulfilled or rejected
    the flag is clear and the button is enabled.  The first component never
    disables the button. *)
Theorem uploading_flag_has_upload_in_flight ver env m savedData es st :
  run ver env (mounted m savedData) es = Some st ->
  isUploading st = true ->
  ver = Cloudinary
  /\ exists i file sel,
       inFlight st !! i = Some (UploadImage file sel)
       /\ forall o, o <> Loaded ->
            exists st', step ver env st (Settle i o) = Some st'
                        /\ isUploading st' = false
                        /\ save_disabled ver st' = false.
Proof.
  intros Hrun Hu.
  assert (U : uploading_means_upload ver st).
  { eapply uploading_means_upload_run; [exact Hrun|]. intros H. discriminate H. }
  destruct (U Hu) as (-> & f & sel & Hin). split; [done|].
  apply list_elem_of_lookup in Hin as [i Hi]. exists i, f, sel.
  split; [exact Hi|]. intros o Ho. simpl. rewrite Hi.
  destruct o as [|url|]; [done| |]; simpl; eexists; (split; [reflexivity|]);
    unfold generateCaption; by repeat case_match.
Qed.

Lemma uploading_flag_has_upload_in_flight_witness :
  exists st,
    run Cloudinary (sample_env None) (mounted ∅ None)
      [StationClick EW18 EWL (js "2024-05-01"); ChangeFile (Some photo)]
    = Some st
    /\ isUploading st = true
    /\ exists i file sel, inFlight st !! i = Some (UploadImage file sel).
Proof.
  assert (Hr : run Cloudinary (sample_env None) (mounted ∅ None)
                 [StationClick EW18 EWL (js "2024-05-01");
                  ChangeFile (Some photo)]
               = Some (mkApp ∅ (Some (EW18, EWL)) true true false
                         (Some sample_record) None
                         [ReaderOnload photo;
                          UploadImage photo (Some (EW18, EWL))] [])).
  { vm_compute. reflexivity. }
  eexists. split; [exact Hr|]. split; [reflexivity|].
  destruct (uploading_flag_has_upload_in_flight Cloudinary (sample_env None)
              ∅ None _ _ Hr eq_refl) as (_ & i & f & sel & Hi & _).
  exists i, f, sel. exact Hi.
Defined.

(** X9.  The converse fails.  With two uploads in flight, the end of either
    clears [isUploading] while the other is still in flight, and the save
    button is enabled again: a save is then possible during an upload. *)
Theorem second_upload_outlives_the_flag env st i j file sel file' sel' o d :
  inFlight st !! i = Some (UploadImage file sel) ->
  inFlight st !! j = Some (UploadImage file' sel') ->
  i <> j ->
  o <> Loaded ->
  modal_shown st = true ->
  tempVisit st = Some d ->
  exists st1 st2,
    step Cloudinary env st (Settle i o) = Some st1
    /\ isUploading st1 = false
    /\ UploadImage file' sel' ∈ inFlight st1
    /\ step Cloudinary env st1 ClickSave = Some st2
    /\ UploadImage file' sel' ∈ inFlight st2.
Proof.
  intros Hi Hj Hne Ho Hm Hd.
  assert (Hin : UploadImage file' sel' ∈ delete i (inFlight st)).
  { apply list_elem_of_lookup. destruct (decide (j < i)%nat).
    - exists j. by rewrite list_lookup_delete_lt.
    - destruct j as [|j]; [lia|]. exists j.
      rewrite list_lookup_delete_ge by lia. exact Hj. }
  unfold modal_shown in Hm. apply andb_true_iff in Hm as [Hopen Hsel].
  destruct o as [|url|]; [done| |].
  - set (st1 := setIsUploading false
                  (generateCaption env file sel
                     (setTempVisit (patch (with_imageData url))
                        (finish i st)))).
    assert (H1 : isModalOpen st1 = isModalOpen st
                 /\ selectedStationData st1 = selectedStationData st
                 /\ tempVisit st1 = Some (with_imageData url d)
                 /\ UploadImage file' sel' ∈ inFlight st1).
    { unfold st1, generateCaption. case_match; simpl; rewrite Hd;
        rewrite ?elem_of_app; auto. }
    destruct H1 as (M1 & S1 & D1 & I1).
    exists st1, (saveEntry st1). split; [simpl; by rewrite Hi|].
    split; [reflexivity|]. split; [exact I1|]. split.
    { cbn [step]. unfold modal_shown, save_disabled.
      rewrite M1, S1, Hopen, Hsel. reflexivity. }
    unfold saveEntry. rewrite D1. exact I1.
  - eexists _, _. split; [simpl; rewrite Hi; reflexivity|].
    split; [reflexivity|]. split; [exact Hin|]. split.
    { cbn [step]. unfold modal_shown, save_disabled. simpl.
      rewrite Hopen, Hsel. reflexivity. }
    unfold saveEntry. simpl. rewrite Hd. exact Hin.
Qed.

Lemma second_upload_outlives_the_flag_witness :
  exists st st1 st2,
    run Cloudinary (sample_env None) (mounted ∅ None)
      [StationClick EW18 EWL (js "2024-05-01"); ChangeFile (Some photo);
       ChangeFile (Some photo)] = Some st
    /\ step Cloudinary (sample_env None) st (Settle 1 Rejected) = Some st1
    /\ step Cloudinary (sample_env None) st1 ClickSave = Some st2
    /\ UploadImage photo (Some (EW18, EWL)) ∈ inFlight st2.
Proof.
  assert (Hr : run Cloudinary (sample_env None) (mounted ∅ None)
                 [StationClick EW18 EWL (js "2024-05-01");
                  ChangeFile (Some photo); ChangeFile (Some photo)]
               = Some (mkApp ∅ (Some (EW18, EWL)) true true false
                         (Some sample_record) None
                         [ReaderOnload photo;
                          UploadImage photo (Some (EW18, EWL));
                          ReaderOnload photo;
                          UploadImage photo (Some (EW18, EWL))] [])).
  { vm_compute. reflexivity. }
  destruct (second_upload_outlives_the_flag (sample_env None)
              (mkApp ∅ (Some (EW18, EWL)) true true false
                 (Some sample_record) None
                 [ReaderOnload photo; UploadImage photo (Some (EW18, EWL));
                  ReaderOnload photo; UploadImage photo (Some (EW18, EWL))]
                 [])
              1 3 photo
              (Some (EW18, EWL)) photo (Some (EW18, EWL)) Rejected
              sample_record eq_refl eq_refl ltac:(lia) ltac:(discriminate)
              eq_refl eq_refl)
    as (st1 & st2 & H1 & _ & _ & H2 & H3).
  eexists; exists st1, st2. split; [exact Hr|]. split; [exact H1|].
  split; [exact H2 | exact H3].
Defined.

(** ** The preview and the upload race *)

Lemma inFlight_generateCaption env file sel st :
  exists more, inFlight (generateCaption env file sel st) = inFlight st ++ more.
Proof.
  unfold generateCaption. case_match; [by exists [CaptionReader file sel]|].
  exists []. by rewrite app_nil_r.
Qed.

Lemma tempVisit_generateCaption env file sel st :
  tempVisit (generateCaption env file sel st) = tempVisit st.
Proof. unfold generateCaption. by case_match. Qed.

(** X10.  The preview read and the upload of the second component both write
    [imageData], and the one that ends last decides.  If the read ends
    first, the draft ends with the uploaded URL; if the upload is fulfilled
    before the read has ended, the draft ends with the local data URL,
    though the upload has succeeded. *)
Theorem last_result_decides_imageData env st i j file file' sel cloudUrl d :
  tempVisit st = Some d ->
  inFlight st !! i = Some (ReaderOnload file) ->
  inFlight st !! j = Some (UploadImage file' sel) ->
  (i < j)%nat ->
  (exists st',
     run Cloudinary env st [Settle i Loaded; Settle (j - 1) (Fulfilled cloudUrl)]
     = Some st'
     /\ (imageData <$> tempVisit st') = Some (Some cloudUrl)
     /\ isUploading st' = false)
  /\ (exists st',
        run Cloudinary env st [Settle j (Fulfilled cloudUrl); Settle i Loaded]
        = Some st'
        /\ (imageData <$> tempVisit st') = Some (Some (readAsDataURL file))
        /\ isUploading st' = false).
Proof.
  intros Hd Hi Hj Hlt. split.
  - assert (Hj' : delete i (inFlight st) !! (j - 1)%nat
                  = Some (UploadImage file' sel)).
    { rewrite list_lookup_delete_ge by lia.
      replace (S (j - 1)) with j by lia. exact Hj. }
    eexists. split.
    { cbn [run step]. rewrite Hi. cbn [continue].
      cbn [step finish setTempVisit inFlight]. rewrite Hj'. cbn [continue].
      reflexivity. }
    split; [|reflexivity].
    simpl. rewrite tempVisit_generateCaption. simpl. by rewrite Hd.
  - set (st1 := setIsUploading false
                  (generateCaption env file' sel
                     (setTempVisit (patch (with_imageData cloudUrl))
                        (finish j st)))).
    assert (H1 : step Cloudinary env st (Settle j (Fulfilled cloudUrl))
                 = Some st1) by (simpl; by rewrite Hj).
    assert (Hi1 : inFlight st1 !! i = Some (ReaderOnload file)).
    { unfold st1. simpl.
      destruct (inFlight_generateCaption env file' sel
                  (setTempVisit (patch (with_imageData cloudUrl))
                     (finish j st))) as [more ->].
      simpl. rewrite lookup_app_l.
      - by rewrite list_lookup_delete_lt.
      - rewrite length_delete by eauto.
        apply lookup_lt_Some in Hj. lia. }
    assert (Hd1 : tempVisit st1 = Some (with_imageData cloudUrl d)).
    { unfold st1. simpl. rewrite tempVisit_generateCaption. simpl.
      by rewrite Hd. }
    assert (Hu1 : isUploading st1 = false) by reflexivity.
    clearbody st1. eexists. split.
    { cbn [run]. rewrite H1. cbn [step]. rewrite Hi1. cbn [continue].
      reflexivity. }
    split; [|exact Hu1]. simpl. by rewrite Hd1.
Qed.

Lemma last_result_decides_imageData_witness :
  let st := mkApp ∅ (Some (EW18, EWL)) true true false (Some sample_record)
              None [ReaderOnload photo; UploadImage photo (Some (EW18, EWL))]
              [] in
  exists st',
    run Cloudinary (sample_env None) st
      [Settle 1 (Fulfilled sample_url); Settle 0 Loaded] = Some st'
    /\ (imageData <$> tempVisit st') = Some (Some (readAsDataURL photo)).
Proof.
  intros st.
  destruct (last_result_decides_imageData (sample_env None) st 0 1 photo photo
              (Some (EW18, EWL)) sample_url sample_record eq_refl eq_refl
              eq_refl ltac:(lia)) as [_ (st' & H1 & H2 & _)].
  exists st'. split; [exact H1 | exact H2].
Defined.

(** ** The caption indicator *)

Lemma quiet_step env st e st' :
  step Cloudinary env st e = Some st' ->
  selects_file e = false ->
  inFlight st = [] ->
  inFlight st' = []
  /\ isGeneratingCaption st' = isGeneratingCaption st
  /\ output st' = output st.
Proof.
  intros H Hs Hq. destruct e; simpl in H;
    try (apply guard_Some in H as [_ ->]); try done.
  - destruct file; [discriminate|]. done.
  - unfold saveEntry. by destruct (tempVisit st).
  - unfold deleteEntry. by destruct (selectedStationData st) as [[? ?]|].
  - rewrite Hq in H. discriminate.
Qed.

(** X11.  When a generation request is rejected, the first component logs the
    error and turns the indicator off.  The second component lets the
    rejection go unhandled and leaves the indicator as it is; if nothing
    else is in flight, it then stays on through every later event, until
    the user selects another file. *)
Theorem rejected_generation_and_the_indicator env st i file request :
  inFlight st !! i = Some (GenerateContent file request) ->
  (exists st1,
     step Inline env st (Settle i Rejected) = Some st1
     /\ isGeneratingCaption st1 = false
     /\ output st1 = output st ++ [ConsoleError (js "AI Error:")])
  /\ (exists st1,
        step Cloudinary env st (Settle i Rejected) = Some st1
        /\ isGeneratingCaption st1 = isGeneratingCaption st
        /\ output st1 = output st ++ [UnhandledRejection]
        /\ (inFlight st = [GenerateContent file request] ->
            forall es st',
              Forall (fun e => selects_file e = false) es ->
              run Cloudinary env st1 es = Some st' ->
              isGeneratingCaption st' = isGeneratingCaption st
              /\ inFlight st' = [])).
Proof.
  intros Hi. split.
  - eexists. split; [simpl; rewrite Hi; reflexivity|]. done.
  - eexists. split; [simpl; rewrite Hi; reflexivity|].
    split; [reflexivity|]. split; [reflexivity|].
    intros Hall es.
    assert (i = 0%nat) as ->.
    { rewrite Hall in Hi. destruct i as [|[|?]]; [done|discriminate..]. }
    set (st1 := emit UnhandledRejection (finish 0 st)).
    assert (H0 : inFlight st1 = []
                 /\ isGeneratingCaption st1 = isGeneratingCaption st).
    { unfold st1. simpl. by rewrite Hall. }
    revert H0. generalize st1. clear st1.
    induction es as [|e es IH]; intros st1 [Hq Hg] st' Hes Hrun.
    + simpl in Hrun. inversion Hrun; subst. done.
    + simpl in Hrun. destruct (step Cloudinary env st1 e) as [st2|] eqn:E;
        [|discriminate].
      inversion Hes as [|? ? He Hes']; subst.
      destruct (quiet_step _ _ _ _ E He Hq) as (Hq2 & Hg2 & _).
      apply (IH st2); [|done|done]. split; [done|congruence].
Qed.

Lemma rejected_generation_and_the_indicator_witness :
  let request := caption_request photo (Some (EW18, EWL)) in
  let st := mkApp ∅ (Some (EW18, EWL)) true false true
              (Some (with_imageData sample_url sample_record)) None
              [GenerateContent photo request] [] in
  exists st1 st',
    step Cloudinary (sample_env (Some (js "key"))) st (Settle 0 Rejected)
    = Some st1
    /\ run Cloudinary (sample_env (Some (js "key"))) st1
         [ChangeCaption (js "my own words"); ClickSave;
          StationClick NS1 NSL (js "2024-05-02")] = Some st'
    /\ isGeneratingCaption st' = true.
Proof.
  intros request st.
  destruct (rejected_generation_and_the_indicator
              (sample_env (Some (js "key"))) st 0 photo request eq_refl)
    as [_ (st1 & H1 & _ & _ & H4)].
  assert (Hr : exists st',
             run Cloudinary (sample_env (Some (js "key"))) st1
               [ChangeCaption (js "my own words"); ClickSave;
                StationClick NS1 NSL (js "2024-05-02")] = Some st').
  { simpl in H1. inversion H1; subst. eexists. vm_compute. reflexivity. }
  destruct Hr as [st' Hr]. exists st1, st'.
  split; [exact H1|]. split; [exact Hr|].
  refine (proj1 (H4 eq_refl _ st' _ Hr)).
  repeat constructor.
Defined.

(** * The image URL *)

Lemma startsWith_true (p s : jsstring) :
  startsWith p s = true <-> exists rest, s = p ++ rest.
Proof.
  revert s. induction p as [|a p IH]; intros s; simpl.
  - split; [intros _; by exists s | done].
  - destruct s as [|c s]; [split; [done | intros [? ?]; discriminate]|].
    rewrite andb_true_iff, N.eqb_eq, IH. split.
    + intros [-> [rest ->]]. by exists rest.
    + intros [rest H]. inversion H; subst. split; [done | by exists rest].
Qed.

Lemma split_on_nonempty sep : forall s k, split_on sep k s <> [].
Proof.
  induction s as [|c r IH]; intros k; [done|]. cbn [split_on].
  destruct k; [|apply IH].
  destruct (startsWith sep (c :: r)); [done|].
  by destruct (split_on sep 0 r).
Qed.

Lemma join_cons_empty sep ps :
  ps <> [] -> join sep ([] :: ps) = sep ++ join sep ps.
Proof. destruct ps as [|q qs]; [done|]. intros _. simpl. by rewrite app_assoc. Qed.

(** Joining the pieces with the separator gives the string back; with
    [skip] characters of an occurrence still to pass, it gives what comes
    after them. *)
Lemma join_split_on (sep : jsstring) : forall s k,
  sep <> [] ->
  (k <= length s)%nat ->
  join sep (split_on sep k s) = drop k s.
Proof.
  induction s as [|c r IH]; intros k Hsep Hk.
  - simpl in Hk. by replace k with 0%nat by lia.
  - cbn [split_on]. destruct k as [|k].
    + destruct (startsWith sep (c :: r)) eqn:E.
      * apply startsWith_true in E as [rest E].
        destruct sep as [|a sep']; [done|]. inversion E; subst.
        rewrite join_cons_empty by apply split_on_nonempty.
        rewrite IH; [|done|simpl; rewrite length_app; lia].
        simpl. replace (length sep' - 0)%nat with (length sep') by lia.
        rewrite drop_app_length. reflexivity.
      * pose proof (IH 0%nat Hsep ltac:(lia)) as H0.
        pose proof (split_on_nonempty sep r 0) as Hne.
        destruct (split_on sep 0 r) as [|w ws]; [done|].
        simpl in *. by rewrite H0.
    + simpl. apply IH; [done|]. simpl in Hk. lia.
Qed.

Lemma split_str_without (sep s : jsstring) :
  includes s sep = false -> split_str sep s = [s].
Proof.
  unfold split_str. induction s as [|c r IH]; [done|].
  cbn [includes split_on]. intros H. apply orb_false_iff in H as [H1 H2].
  rewrite H1, (IH H2). reflexivity.
Qed.

(** The first piece ends where the separator first occurs. *)
Lemma split_str_first (sep : jsstring) : forall s p0 p1 more,
  split_str sep s = p0 :: p1 :: more ->
  (forall k, (k < length p0)%nat -> startsWith sep (drop k s) = false)
  /\ startsWith sep (drop (length p0) s) = true.
Proof.
  unfold split_str. induction s as [|c r IH]; intros p0 p1 more H;
    [discriminate|].
  cbn [split_on] in H. destruct (startsWith sep (c :: r)) eqn:E.
  - inversion H; subst. split; [intros k Hk; simpl in Hk; lia | exact E].
  - destruct (split_on sep 0 r) as [|w ws] eqn:Er; [discriminate|].
    inversion H; subst. destruct (IH _ _ _ eq_refl) as [Hb Ha].
    split; [|exact Ha]. intros [|k] Hk; [exact E|].
    simpl. apply Hb. simpl in Hk. lia.
Qed.

Lemma split_str_with (sep s : jsstring) :
  sep <> [] -> includes s sep = true ->
  exists p0 p1 more, split_str sep s = p0 :: p1 :: more.
Proof.
  intros Hsep. unfold split_str. induction s as [|c r IH]; intros H.
  - simpl in H. rewrite orb_false_r in H. apply startsWith_true in H as [? H].
    by destruct sep.
  - cbn [includes] in H. cbn [split_on].
    destruct (startsWith sep (c :: r)) eqn:E.
    + pose proof (split_on_nonempty sep r (length sep - 1)) as Hne.
      destruct (split_on sep (length sep - 1) r) as [|q qs]; [done|]. eauto.
    + simpl in H. destruct (IH H) as (p0 & p1 & more & ->). eauto.
Qed.

Lemma includes_no_char (s sub : jsstring) (c : N) :
  c ∈ sub -> c ∉ s -> includes s sub = false.
Proof.
  intros Hc Hs. induction s as [|x s IH].
  - simpl. rewrite orb_false_r. destruct sub; [by apply elem_of_nil in Hc|done].
  - apply not_elem_of_cons in Hs as [Hx Hs]. cbn [includes].
    rewrite (IH Hs), orb_false_r.
    destruct (startsWith sub (x :: s)) eqn:E; [|done].
    apply startsWith_true in E as [rest E]. exfalso.
    assert (Hin : c ∈ x :: s) by (rewrite E; apply elem_of_app; by left).
    apply elem_of_cons in Hin as [->|Hin]; done.
Qed.

(** Past the characters of an occurrence, the split goes on with what
    follows. *)
Lemma split_on_skip (sep p rest : jsstring) :
  split_on sep (length p) (p ++ rest) = split_on sep 0 rest.
Proof. induction p as [|a p IH]; [done|]. simpl. exact IH. Qed.

(** The pieces after the first are the pieces of what follows the first
    occurrence. *)
Lemma split_str_rest (sep : jsstring) : forall s p0 p1 more,
  sep <> [] ->
  split_str sep s = p0 :: p1 :: more ->
  split_str sep (drop (length p0 + length sep) s) = p1 :: more.
Proof.
  unfold split_str. induction s as [|c r IH]; intros p0 p1 more Hsep H;
    [discriminate|].
  cbn [split_on] in H. destruct (startsWith sep (c :: r)) eqn:E.
  - injection H as H0 H1. subst p0.
    apply startsWith_true in E as [rest E].
    destruct sep as [|a sep']; [done|].
    inversion E; subst c r. clear E.
    simpl in H1. replace (length sep' - 0)%nat with (length sep') in H1 by lia.
    rewrite split_on_skip in H1.
    change (length [] + length (a :: sep'))%nat with (S (length sep')).
    simpl. by rewrite drop_app_length.
  - destruct (split_on sep 0 r) as [|w ws] eqn:Er; [discriminate|].
    inversion H; subst. simpl. by apply IH.
Qed.

(** A piece ends where the separator next occurs, or at the end. *)
Lemma split_str_head (sep : jsstring) : forall s p0 more,
  split_str sep s = p0 :: more ->
  (forall k, (k < length p0)%nat -> startsWith sep (drop k s) = false)
  /\ (more = [] -> p0 = s).
Proof.
  unfold split_str. induction s as [|c r IH]; intros p0 more H.
  - inversion H; subst. split; [intros k Hk; simpl in Hk; lia | done].
  - cbn [split_on] in H. destruct (startsWith sep (c :: r)) eqn:E.
    + inversion H; subst. split; [intros k Hk; simpl in Hk; lia|].
      intros Hm. by apply split_on_nonempty in Hm.
    + destruct (split_on sep 0 r) as [|w ws] eqn:Er;
        [by apply split_on_nonempty in Er|].
      inversion H; subst. destruct (IH _ _ eq_refl) as [Hb Hm].
      split.
      * intros [|k] Hk; [exact E|]. simpl. apply Hb. simpl in Hk. lia.
      * intros ->. by rewrite (Hm eq_refl).
Qed.

(** X12.  A Cloudinary URL with an [/upload/]: the transformation goes in right
    after the first [/upload/] of the URL, and the URL is cut at the next
    one, if there is one.  [a] is what comes before the first [/upload/]:
    no [/upload/] starts in it.  [b] is what comes between that [/upload/]
    and the next one or the end: no [/upload/] starts in it either, and
    what is left, [tail], is empty or starts with [/upload/]. *)
Theorem getOptimizedUrl_inserts_after_first_upload (url : jsstring) :
  includes url (js "cloudinary.com") = true ->
  includes url (js "/upload/") = true ->
  exists a b tail,
    url = a ++ js "/upload/" ++ b ++ tail
    /\ (forall k, (k < length a)%nat ->
          startsWith (js "/upload/") (drop k url) = false)
    /\ (forall k, (k < length b)%nat ->
          startsWith (js "/upload/") (drop k (b ++ tail)) = false)
    /\ (tail = [] \/ startsWith (js "/upload/") tail = true)
    /\ getOptimizedUrl url
       = a ++ js "/upload/w_800,c_limit,q_auto,f_auto/" ++ b.
Proof.
  intros Hc Hu.
  destruct (split_str_with (js "/upload/") url ltac:(done) Hu)
    as (a & b & more & Hs).
  pose proof (join_split_on (js "/upload/") url 0 ltac:(done) ltac:(lia)) as Hj.
  fold (split_str (js "/upload/") url) in Hj. rewrite Hs in Hj.
  set (tail := concat (map (fun q => js "/upload/" ++ q) more)).
  assert (Hurl : url = a ++ js "/upload/" ++ b ++ tail).
  { rewrite <- Hj at 1. cbn [join map concat drop]. unfold tail.
    by rewrite <- !app_assoc. }
  exists a, b, tail.
  split; [exact Hurl|]. split; [|split; [|split]].
  - by destruct (split_str_first _ _ _ _ _ Hs).
  - pose proof (split_str_rest (js "/upload/") _ _ _ _ ltac:(done) Hs) as Hr.
    rewrite Hurl in Hr at 1.
    rewrite <- drop_drop, drop_app_length, drop_app_length in Hr.
    by destruct (split_str_head _ _ _ _ Hr).
  - unfold tail. destruct more as [|q more]; [by left|]. right.
    apply startsWith_true. cbn [map concat]. rewrite <- app_assoc. eauto.
  - unfold getOptimizedUrl. rewrite Hc.
    destruct url as [|c url]; [discriminate|].
    cbn [truthy negb orb]. cbv zeta. rewrite Hs. reflexivity.
Qed.

Lemma getOptimizedUrl_inserts_after_first_upload_witness :
  includes sample_url (js "cloudinary.com") = true
  /\ includes sample_url (js "/upload/") = true
  /\ exists a b tail,
       sample_url = a ++ js "/upload/" ++ b ++ tail
       /\ (forall k, (k < length b)%nat ->
             startsWith (js "/upload/") (drop k (b ++ tail)) = false)
       /\ getOptimizedUrl sample_url
          = a ++ js "/upload/w_800,c_limit,q_auto,f_auto/" ++ b.
Proof.
  assert (Hc : includes sample_url (js "cloudinary.com") = true)
    by (vm_compute; reflexivity).
  assert (Hu : includes sample_url (js "/upload/") = true)
    by (vm_compute; reflexivity).
  split; [exact Hc|]. split; [exact Hu|].
  destruct (getOptimizedUrl_inserts_after_first_upload sample_url Hc Hu)
    as (a & b & tail & H1 & _ & Hb & _ & H2).
  exists a, b, tail. split; [exact H1|]. split; [exact Hb | exact H2].
Defined.

(** A URL with two [/upload/]: what follows the second is dropped. *)
Example getOptimizedUrl_cuts_at_second_upload :
  getOptimizedUrl
    (js "https://res.cloudinary.com/demo/image/upload/v1/upload/redhill.png")
  = js "https://res.cloudinary.com/demo/image/upload/w_800,c_limit,q_auto,f_auto/v1".
Proof. vm_compute. reflexivity. Qed.

(** The URL of an upload, as the bubble shows it. *)
Example getOptimizedUrl_sample :
  getOptimizedUrl sample_url
  = js "https://res.cloudinary.com/dkzcaidam/image/upload/w_800,c_limit,q_auto,f_auto/v1/redhill.png".
Proof. vm_compute. reflexivity. Qed.

(** X13.  Any other URL.  One that does not hold [cloudinary.com], the empty
    string and the data URL of a local preview among them, comes back as it
    is.  A Cloudinary URL without [/upload/] comes back with the
    transformation and the word [undefined] at its end. *)
Theorem getOptimizedUrl_other_urls (url : jsstring) :
  (includes url (js "cloudinary.com") = false -> getOptimizedUrl url = url)
  /\ (includes url (js "cloudinary.com") = true ->
      includes url (js "/upload/") = false ->
      getOptimizedUrl url
      = url ++ js "/upload/w_800,c_limit,q_auto,f_auto/undefined")
  /\ (forall file, url = readAsDataURL file ->
        46 ∉ file_type file -> 46 ∉ file_base64 file ->
        getOptimizedUrl url = url).
Proof.
  assert (H1 : includes url (js "cloudinary.com") = false ->
               getOptimizedUrl url = url).
  { intros H. unfold getOptimizedUrl. rewrite H. by rewrite orb_true_r. }
  split; [exact H1|]. split.
  - intros Hc Hu. unfold getOptimizedUrl. rewrite Hc.
    destruct url as [|c url]; [discriminate|].
    cbn [truthy negb orb]. cbv zeta.
    rewrite (split_str_without _ _ Hu). cbn [nth_error interpolate].
    reflexivity.
  - intros file -> Ht Hb. apply H1.
    apply (includes_no_char _ _ 46); [in_literal|].
    unfold readAsDataURL. rewrite !not_elem_of_app.
    repeat split; try done; not_in_literal.
Qed.

Lemma getOptimizedUrl_other_urls_witness :
  getOptimizedUrl (readAsDataURL photo) = readAsDataURL photo
  /\ getOptimizedUrl (js "https://res.cloudinary.com/dkzcaidam/raw/redhill.png")
     = js "https://res.cloudinary.com/dkzcaidam/raw/redhill.png"
       ++ js "/upload/w_800,c_limit,q_auto,f_auto/undefined".
Proof.
  split.
  - apply (proj2 (proj2 (getOptimizedUrl_other_urls (readAsDataURL photo)))
             photo eq_refl); not_in_literal.
  - apply (proj1 (proj2 (getOptimizedUrl_other_urls _)));
      vm_compute; reflexivity.
Defined.

(** * The search and the line headers *)

Lemma startsWith_refl (s : jsstring) : startsWith s s = true.
Proof. induction s as [|c s IH]; [done|]. simpl. by rewrite N.eqb_refl. Qed.

Lemma includes_refl (s : jsstring) : includes s s = true.
Proof. destruct s; simpl; [done|]. by rewrite N.eqb_refl, startsWith_refl. Qed.

Section SearchProperties.

Variable toLowerCase : jsstring -> jsstring.

Lemma filteredLines_blank (lines : list MRTLine) (q : jsstring) :
  trim q = [] -> filteredLines toLowerCase lines q = lines.
Proof. intros H. unfold filteredLines. by rewrite H. Qed.

Lemma filteredLines_elem (lines : list MRTLine) (q : jsstring) line :
  trim q <> [] ->
  line ∈ filteredLines toLowerCase lines q <->
  stations line <> []
  /\ exists l, l ∈ lines /\ line = restrict_line toLowerCase (toLowerCase q) l.
Proof.
  intros Hq. unfold filteredLines.
  destruct (trim q) as [|c t] eqn:E; [done|]. cbn [truthy negb].
  rewrite list_elem_of_In, filter_In, in_map_iff. split.
  - intros [(l & <- & Hl) Hne]. split.
    + intros H0. rewrite H0 in Hne. discriminate.
    + exists l. by rewrite list_elem_of_In.
  - intros [Hne (l & Hl & ->)]. split.
    + exists l. by rewrite <- list_elem_of_In.
    + destruct (stations (restrict_line toLowerCase (toLowerCase q) l));
        [done | reflexivity].
Qed.

Lemma filteredLines_source (q : jsstring) line
    {lines : list MRTLine} :
  trim q <> [] ->
  line ∈ filteredLines toLowerCase lines q ->
  exists l, l ∈ lines /\ line_id l = line_id line
            /\ line_name l = line_name line
            /\ colorClass l = colorClass line
            /\ stations line ⊆ stations l.
Proof.
  intros Hq Hline.
  apply filteredLines_elem in Hline as [Hne (l & Hl & ->)]; [|done].
  exists l. repeat split; try done.
  simpl. intros s Hs. apply list_elem_of_In, filter_In in Hs as [Hs _].
  by apply list_elem_of_In.
Qed.

(** X14.  What a search shows.  With a query that is not blank, a station is in
    the result exactly when it is a station of the catalog whose name or
    code, in lower case, holds the query in lower case; it then sits in a
    line with the identifier, the name and the colour of its own line; and
    no line of the result is empty.  The query is matched as typed: only the
    test for a blank query trims it. *)
Theorem search_shows_the_matching_stations (lines : list MRTLine)
    (q : jsstring) (station : Station) :
  trim q <> [] ->
  ((exists line, line ∈ filteredLines toLowerCase lines q
                 /\ station ∈ stations line)
   <-> (exists l, l ∈ lines /\ station ∈ stations l
                  /\ (includes (toLowerCase (name station)) (toLowerCase q)
                      || includes (toLowerCase (code station)) (toLowerCase q))
                     = true))
  /\ (forall line, line ∈ filteredLines toLowerCase lines q ->
        stations line <> []
        /\ exists l, l ∈ lines /\ line_id l = line_id line
                     /\ line_name l = line_name line
                     /\ colorClass l = colorClass line
                     /\ stations line ⊆ stations l).
Proof.
  intros Hq. split; [split|].
  - intros (line & Hline & Hs).
    apply filteredLines_elem in Hline as [_ (l & Hl & ->)]; [|done].
    simpl in Hs. apply list_elem_of_In, filter_In in Hs as [Hs Hm].
    exists l. split; [exact Hl|]. split; [by apply list_elem_of_In|].
    exact Hm.
  - intros (l & Hl & Hs & Hm).
    exists (restrict_line toLowerCase (toLowerCase q) l).
    assert (Hin : station ∈ stations (restrict_line toLowerCase (toLowerCase q) l)).
    { simpl. apply list_elem_of_In, filter_In. by rewrite <- list_elem_of_In. }
    split; [|exact Hin]. apply filteredLines_elem; [done|].
    split; [|eauto]. intros H0. rewrite H0 in Hin. by apply elem_of_nil in Hin.
  - intros line Hline.
    apply filteredLines_elem in Hline as [Hne (l & Hl & ->)]; [|done].
    split; [exact Hne|]. exists l. repeat split; try done.
    simpl. intros s Hs. apply list_elem_of_In, filter_In in Hs as [Hs _].
    by apply list_elem_of_In.
Qed.

(** X15.  Every bubble that the page shows, with or without a search, is one that
    [step] offers to click: a station of a line of the catalog. *)
Theorem shown_bubbles_can_be_clicked (env : Env) (q : jsstring) line station
    today st :
  line ∈ filteredLines toLowerCase (MRT_LINES env) q ->
  station ∈ stations line ->
  bubble_shown env station line = true
  /\ forall ver,
       step ver env st (StationClick station line today)
       = Some (handleStationClick station line today st).
Proof.
  intros Hline Hs.
  assert (Hl : exists l, l ∈ MRT_LINES env /\ line_id l = line_id line
                         /\ line_name l = line_name line
                         /\ colorClass l = colorClass line
                         /\ stations line ⊆ stations l).
  { destruct (decide (trim q = [])) as [Hq|Hq].
    - rewrite filteredLines_blank in Hline by done. exists line. done.
    - destruct (filteredLines_source q line Hq Hline)
        as (l & ?). eauto. }
  assert (Hb : bubble_shown env station line = true).
  { unfold bubble_shown. rewrite andb_true_iff, bool_decide_eq_true.
    split; [done|]. apply existsb_exists.
    destruct Hl as (l & Hl & H1 & H2 & H3 & H4). exists l.
    split; [by apply list_elem_of_In|].
    rewrite !andb_true_iff, !bool_decide_eq_true. done. }
  split; [exact Hb|]. intros ver. simpl. by rewrite Hb.
Qed.

(** X16.  A search for the exact name or the exact code of a station of the
    catalog shows that station, in a line with the identifier of its own. *)
Theorem search_by_name_or_code_finds_station (lines : list MRTLine) l station
    (q : jsstring) :
  l ∈ lines ->
  station ∈ stations l ->
  q = name station \/ q = code station ->
  exists line,
    line ∈ filteredLines toLowerCase lines q
    /\ station ∈ stations line
    /\ line_id line = line_id l.
Proof.
  intros Hl Hs Hq. destruct (decide (trim q = [])) as [Hb|Hb].
  - exists l. by rewrite filteredLines_blank.
  - exists (restrict_line toLowerCase (toLowerCase q) l).
    assert (Hm : station_matches toLowerCase (toLowerCase q) station = true).
    { unfold station_matches.
      destruct Hq as [-> | ->]; rewrite includes_refl; by rewrite ?orb_true_r. }
    assert (Hin : station ∈ stations (restrict_line toLowerCase (toLowerCase q) l)).
    { simpl. apply list_elem_of_In, filter_In. by rewrite <- list_elem_of_In. }
    split; [|by split]. apply filteredLines_elem; [done|].
    split; [|eauto]. intros H0. rewrite H0 in Hin. by apply elem_of_nil in Hin.
Qed.

End SearchProperties.

Lemma search_shows_the_matching_stations_witness :
  trim (js "red") <> []
  /\ exists line,
       line ∈ filteredLines lower_ascii [EWL; NSL] (js "red")
       /\ EW18 ∈ stations line.
Proof.
  assert (Hq : trim (js "red") <> []) by (vm_compute; discriminate).
  split; [exact Hq|].
  apply (proj1 (search_shows_the_matching_stations lower_ascii [EWL; NSL]
                  (js "red") EW18 Hq)).
  exists EWL. split; [left|]. split; [left|]. vm_compute. reflexivity.
Defined.

Lemma shown_bubbles_can_be_clicked_witness :
  let line := restrict_line lower_ascii (js "ew1") EWL in
  line ∈ filteredLines lower_ascii (MRT_LINES (sample_env None)) (js "EW1")
  /\ EW18 ∈ stations line
  /\ bubble_shown (sample_env None) EW18 line = true.
Proof.
  intros line.
  assert (Hl : line ∈ filteredLines lower_ascii (MRT_LINES (sample_env None))
                        (js "EW1")) by (vm_compute; left).
  assert (Hs : EW18 ∈ stations line) by (vm_compute; left).
  split; [exact Hl|]. split; [exact Hs|].
  exact (proj1 (shown_bubbles_can_be_clicked lower_ascii (sample_env None)
                  (js "EW1") line EW18 [] (mounted ∅ None) Hl Hs)).
Defined.

Lemma search_by_name_or_code_finds_station_witness :
  exists line,
    line ∈ filteredLines lower_ascii [EWL; NSL] (js "NS1")
    /\ NS1 ∈ stations line
    /\ line_id line = js "NSL".
Proof.
  apply (search_by_name_or_code_finds_station lower_ascii [EWL; NSL] NSL NS1
           (js "NS1")).
  - right. left.
  - left.
  - right. reflexivity.
Defined.

(** ** The counts of the line headers *)

Lemma NoDup_fmap_eq {A B} (f : A -> B) (l : list A) (a b : A) :
  NoDup (f <$> l) -> a ∈ l -> b ∈ l -> f a = f b -> a = b.
Proof.
  induction l as [|x l IH]; intros Hnd Ha Hb Hf; [by apply elem_of_nil in Ha|].
  rewrite fmap_cons in Hnd. apply NoDup_cons in Hnd as [Hx Hnd].
  apply elem_of_cons in Ha as [->|Ha]; apply elem_of_cons in Hb as [->|Hb];
    try done.
  - exfalso. apply Hx. rewrite Hf. apply list_elem_of_fmap. eauto.
  - exfalso. apply Hx. rewrite <- Hf. apply list_elem_of_fmap. eauto.
  - by apply IH.
Qed.

Lemma originalLine_of_line (lines : list MRTLine) (l line : MRTLine) :
  NoDup (line_id <$> lines) ->
  l ∈ lines -> line_id l = line_id line ->
  originalLine lines line = l.
Proof.
  intros Hnd Hl Hid. unfold originalLine.
  destruct (List.find _ lines) as [l0|] eqn:E.
  - apply find_some in E as [Hin Hp]. apply bool_decide_eq_true in Hp.
    simpl. apply (NoDup_fmap_eq line_id lines); try done.
    + by apply list_elem_of_In.
    + congruence.
  - exfalso. apply list_elem_of_In in Hl.
    pose proof (find_none _ _ E l Hl) as Hp.
    apply bool_decide_eq_false in Hp. done.
Qed.

Lemma lineVisited_restricted (m : VisitMap) (p : Station -> bool)
    (xs : list Station) :
  (length (filter (fun s => is_Some (m !! code s)) (List.filter p xs))
   <= length (filter (fun s => is_Some (m !! code s)) xs))%nat.
Proof.
  induction xs as [|x xs IH]; [done|]. cbn [List.filter].
  destruct (p x).
  - rewrite !filter_cons. case_decide; simpl; lia.
  - rewrite filter_cons. case_decide; simpl; lia.
Qed.

(** X17.  The header of a line of a search result counts the visits of the whole
    line, not of the stations the search has kept: when no two lines of the
    catalog share an identifier, [originalLine] is the line of the catalog
    the result line was made from. *)
Theorem header_counts_the_whole_line (toLowerCase : jsstring -> jsstring)
    (lines : list MRTLine) (q : jsstring) (line : MRTLine) (m : VisitMap) :
  NoDup (line_id <$> lines) ->
  line ∈ filteredLines toLowerCase lines q ->
  originalLine lines line ∈ lines
  /\ line_id (originalLine lines line) = line_id line
  /\ (trim q <> [] ->
      line = restrict_line toLowerCase (toLowerCase q)
               (originalLine lines line))
  /\ (lineVisited m line <= originalVisitedCount m lines line)%nat
  /\ (originalVisitedCount m lines line
      <= length (stations (originalLine lines line)))%nat.
Proof.
  intros Hnd Hline. unfold originalVisitedCount.
  destruct (decide (trim q = [])) as [Hq|Hq].
  - rewrite filteredLines_blank in Hline by done.
    rewrite (originalLine_of_line lines line line) by done.
    repeat split; try done. unfold lineVisited. apply length_filter.
  - apply filteredLines_elem in Hline as [_ (l & Hl & ->)]; [|done].
    rewrite (originalLine_of_line lines l) by done.
    repeat split; try done.
    + unfold lineVisited. simpl. apply lineVisited_restricted.
    + unfold lineVisited. apply length_filter.
Qed.

Lemma header_counts_the_whole_line_witness :
  let m : VisitMap := {[ js "EW18" := sample_record ]} in
  let line := restrict_line lower_ascii (js "red") EWL in
  NoDup (line_id <$> [EWL; NSL])
  /\ line ∈ filteredLines lower_ascii [EWL; NSL] (js "red")
  /\ originalLine [EWL; NSL] line = EWL.
Proof.
  intros m line.
  assert (Hnd : NoDup (line_id <$> [EWL; NSL])).
  { vm_compute. repeat constructor; not_in_literal. }
  assert (Hl : line ∈ filteredLines lower_ascii [EWL; NSL] (js "red"))
    by (vm_compute; left).
  split; [exact Hnd|]. split; [exact Hl|].
  destruct (header_counts_the_whole_line lower_ascii [EWL; NSL] (js "red")
              line m Hnd Hl) as (Hin & Hid & _).
  apply elem_of_cons in Hin as [H|Hin]; [exact H|].
  apply elem_of_cons in Hin as [H|Hin]; [|by apply elem_of_nil in Hin].
  rewrite H in Hid. vm_compute in Hid. discriminate Hid.
Defined.

Lemma lineVisited_codes (m : VisitMap) (line : MRTLine) :
  lineVisited m line
  = length (filter (fun k => is_Some (m !! k)) (code <$> stations line)).
Proof.
  unfold lineVisited. induction (stations line) as [|s l IH]; [done|].
  rewrite fmap_cons, !filter_cons. case_decide; simpl; by rewrite IH.
Qed.

Lemma sum_lineVisited (m : VisitMap) (lines : list MRTLine) :
  sum_list (lineVisited m <$> lines)
  = length (filter (fun k => is_Some (m !! k)) (catalog_codes lines)).
Proof.
  induction lines as [|l lines IH]; [done|].
  rewrite fmap_cons. cbn [sum_list sum_list_with].
  change (catalog_codes (l :: lines))
    with ((code <$> stations l) ++ catalog_codes lines).
  by rewrite filter_app, length_app, <- IH, lineVisited_codes.
Qed.

Lemma reads_truthy_plain (m : VisitMap) (k : jsstring) :
  k ∉ Object_prototype_names ->
  reads_truthy m k = bool_decide (is_Some (m !! k)).
Proof.
  intros Hk. unfold reads_truthy. rewrite get_property_plain by done.
  unfold own_entry. destruct (m !! k) as [d|].
  - symmetry. apply bool_decide_eq_true. eauto.
  - symmetry. apply bool_decide_eq_false. by intros [? ?].
Qed.

Lemma catalog_codes_elem (lines : list MRTLine) line s :
  line ∈ lines -> s ∈ stations line -> code s ∈ catalog_codes lines.
Proof.
  intros Hl Hs. unfold catalog_codes. apply list_elem_of_In, in_concat.
  exists (code <$> stations line). split; apply list_elem_of_In.
  - apply list_elem_of_fmap. by exists line.
  - apply list_elem_of_fmap. by exists s.
Qed.

(** On a catalog with plain codes the count of a line header is the count
    of the own entries. *)
Lemma visitedCount_plain (m : VisitMap) (lines : list MRTLine) line :
  plain_codes lines = true -> line ∈ lines ->
  visitedCount m line = lineVisited m line.
Proof.
  intros Hplain Hl. unfold visitedCount, lineVisited.
  assert (Hs : forall s, s ∈ stations line ->
                 code s ∉ Object_prototype_names).
  { intros s Hs. eapply plain_codes_elem; [exact Hplain|].
    by eapply catalog_codes_elem. }
  induction (stations line) as [|s l IH]; [done|].
  cbn [List.filter]. rewrite filter_cons.
  rewrite reads_truthy_plain by (apply Hs; left).
  assert (IH' := IH (fun x Hx => Hs x (list_elem_of_further _ _ _ Hx))).
  case_decide as Hd.
  - rewrite bool_decide_eq_true_2 by done. simpl. by rewrite IH'.
  - rewrite bool_decide_eq_false_2 by done. exact IH'.
Qed.

(** X18.  The count of the dashboard and the counts of the line headers agree:
    when no two stations of the catalog share a code, no code is the name of
    a property of [Object.prototype], and every key of the store is a code
    of the catalog, the visited total is the sum of the counts of the lines,
    and each of these counts the own entries of the store.  Each of them is
    at most the length of its line. *)
Theorem dashboard_is_sum_of_line_counts (m : VisitMap) (lines : list MRTLine) :
  NoDup (catalog_codes lines) ->
  plain_codes lines = true ->
  (forall k, is_Some (m !! k) -> k ∈ catalog_codes lines) ->
  sum_list (visitedCount m <$> lines) = totalVisited m
  /\ (forall line, line ∈ lines -> visitedCount m line = lineVisited m line)
  /\ forall line, (visitedCount m line <= length (stations line))%nat.
Proof.
  intros Hnd Hplain Hkeys.
  assert (Hsame : forall line, line ∈ lines ->
                    visitedCount m line = lineVisited m line)
    by (intros line Hl; by eapply visitedCount_plain).
  split; [|split; [exact Hsame|]].
  2: { intros line. unfold visitedCount. apply List.filter_length_le. }
  replace (visitedCount m <$> lines) with (lineVisited m <$> lines)
    by (symmetry; apply Forall_fmap_ext, Forall_forall; exact Hsame).
  rewrite sum_lineVisited. unfold totalVisited.
  rewrite <- length_map_to_list, <- (length_fmap fst).
  apply Permutation_length, NoDup_Permutation.
  - by apply NoDup_filter.
  - apply NoDup_fst_map_to_list.
  - intros k. rewrite list_elem_of_filter, list_elem_of_fmap. split.
    + intros [[d Hd] _]. exists (k, d). split; [done|].
      by apply elem_of_map_to_list.
    + intros ([k' d] & -> & Hkd). apply elem_of_map_to_list in Hkd.
      simpl. split; [eauto|]. apply Hkeys. eauto.
Qed.

Lemma dashboard_is_sum_of_line_counts_witness :
  let m : VisitMap :=
    <[ js "NS1" := mkVisitLog (js "NS1") (js "2024-05-02") None None None None ]>
      {[ js "EW18" := sample_record ]} in
  NoDup (catalog_codes [EWL; NSL])
  /\ plain_codes [EWL; NSL] = true
  /\ (forall k, is_Some (m !! k) -> k ∈ catalog_codes [EWL; NSL])
  /\ sum_list (visitedCount m <$> [EWL; NSL]) = totalVisited m.
Proof.
  intros m.
  assert (Hnd : NoDup (catalog_codes [EWL; NSL])).
  { vm_compute. repeat constructor; not_in_literal. }
  assert (Hp : plain_codes [EWL; NSL] = true) by (vm_compute; reflexivity).
  assert (Hk : forall k, is_Some (m !! k) -> k ∈ catalog_codes [EWL; NSL]).
  { intros k [d Hd]. unfold m in Hd.
    apply lookup_insert_Some in Hd as [[<- _]|[_ Hd]].
    - vm_compute. right. left.
    - apply lookup_singleton_Some in Hd as [<- _]. vm_compute. left. }
  split; [exact Hnd|]. split; [exact Hp|]. split; [exact Hk|].
  exact (proj1 (dashboard_is_sum_of_line_counts m [EWL; NSL] Hnd Hp Hk)).
Defined.

(** Without the condition on the codes the header counts what the store
    object inherits: on an empty store, a line with a station of code
    [constructor] shows one station of two as visited, and the dashboard
    none. *)
Lemma inherited_name_is_counted :
  let line := mkMRTLine (js "XL") (js "X Line") (js "bg-blue-600")
                [mkStation (js "constructor") (js "Constructor");
                 mkStation (js "X2") (js "Second")] in
  NoDup (catalog_codes [line])
  /\ plain_codes [line] = false
  /\ visitedCount ∅ line = 1%nat
  /\ lineVisited ∅ line = 0%nat
  /\ totalVisited ∅ = 0%nat.
Proof.
  intros line. split; [vm_compute; repeat constructor; not_in_literal|].
  repeat split; vm_compute; reflexivity.
Qed.

(** * The theme *)

(** X19.  The theme the user has chosen is the theme of the next load, whatever
    the system prefers: loading the page with the item a toggle has stored
    gives the state the toggle left.  After a toggle the class of the
    document and the stored item agree with [isDark], and two toggles bring
    [isDark] back.  The mount effect only ever adds the class: on a document
    that carries it already, it stays whatever is stored. *)
Theorem chosen_theme_survives_reload (th : Theme) (prefers_dark : bool) :
  initTheme prefers_dark (loaded_page false (theme_item (toggleTheme th)))
  = toggleTheme th
  /\ classList_dark (toggleTheme th) = isDark (toggleTheme th)
  /\ (theme_item (toggleTheme th) = Some (js "dark")
      <-> isDark (toggleTheme th) = true)
  /\ isDark (toggleTheme (toggleTheme th)) = isDark th
  /\ (forall dark_class item,
        classList_dark (initTheme prefers_dark (loaded_page dark_class item))
        = dark_class
          || isDark (initTheme prefers_dark (loaded_page dark_class item))).
Proof.
  destruct th as [[|] c item]; (split; [by destruct prefers_dark|]);
    (split; [reflexivity|]); (split; [by split|]); (split; [reflexivity|]);
    intros dc it; unfold initTheme, loaded_page; simpl;
    case_match; simpl; by rewrite ?orb_true_r, ?orb_false_r.
Qed.

(** Without a stored choice the system decides; a stored choice other than
    ["dark"] gives the light theme even when the system prefers the dark
    one. *)
Lemma first_load_follows_system (prefers_dark : bool)
    (item : option jsstring) :
  (truthy item = false ->
   isDark (initTheme prefers_dark (loaded_page false item)) = prefers_dark)
  /\ (truthy item = true -> item <> Some (js "dark") ->
      isDark (initTheme prefers_dark (loaded_page false item)) = false)
  /\ (item = Some (js "dark") ->
      isDark (initTheme prefers_dark (loaded_page false item)) = true).
Proof.
  unfold initTheme, loaded_page. simpl. split; [|split].
  - intros Hf. rewrite Hf. simpl.
    case_bool_decide as Hd; [by rewrite Hd in Hf|]. simpl.
    by destruct prefers_dark.
  - intros Ht Hne. rewrite Ht. simpl. rewrite orb_false_r.
    by case_bool_decide.
  - intros ->. reflexivity.
Qed.

(** * More on the pipeline *)

Lemma generating_means_request_frame st st' :
  isGeneratingCaption st' = isGeneratingCaption st ->
  (forall t, t ∈ inFlight st -> t ∈ inFlight st') ->
  generating_means_request st -> generating_means_request st'.
Proof.
  intros H1 H2 G Hg. rewrite H1 in Hg. destruct (G Hg) as (f & r & Hin).
  exists f, r. by apply H2.
Qed.

Lemma generating_means_request_step env st e st' :
  step Inline env st e = Some st' ->
  generating_means_request st -> generating_means_request st'.
Proof.
  intros H G. destruct e; simpl in H;
    try (apply guard_Some in H as [_ ->]);
    try by apply (generating_means_request_frame st).
  - unfold handleImageUpload.
    destruct file as [f|], (tempVisit st); try exact G.
    apply (generating_means_request_frame st); [done| |done].
    intros t Ht. simpl. apply elem_of_app. by left.
  - unfold saveEntry. destruct (tempVisit st); [|exact G].
    by apply (generating_means_request_frame st).
  - unfold deleteEntry. destruct (selectedStationData st) as [[s l]|];
      [|exact G].
    by apply (generating_means_request_frame st).
  - destruct (inFlight st !! i) as [t|] eqn:Hi; [|discriminate].
    destruct t, o; simpl in H; try discriminate; inversion H; subst; clear H;
      try (intros Hg; discriminate Hg).
    unfold generating_means_request.
    match goal with |- context [if ?b then _ else _] => destruct b end.
    + intros _. eexists _, _. simpl. apply elem_of_app. right. left.
    + intros Hg. destruct (G Hg) as (f0 & r0 & Hin). exists f0, r0. simpl.
      eapply elem_of_delete_other; eauto.
Qed.

(** X20.  In the first component the caption indicator never stays on for
    nothing: after any sequence of events, when it is on a generation
    request is in flight, and the end of that request, fulfilled or
    rejected, turns it off. *)
Theorem inline_indicator_has_request_in_flight env m savedData es st :
  run Inline env (mounted m savedData) es = Some st ->
  isGeneratingCaption st = true ->
  exists i file request,
    inFlight st !! i = Some (GenerateContent file request)
    /\ forall o, o <> Loaded ->
         exists st', step Inline env st (Settle i o) = Some st'
                     /\ isGeneratingCaption st' = false.
Proof.
  intros Hrun Hg.
  assert (G : generating_means_request st).
  { revert Hrun.
    assert (G0 : generating_means_request (mounted m savedData))
      by (intros H; discriminate H).
    revert G0. generalize (mounted m savedData). revert st Hg.
    induction es as [|e es IH]; simpl; intros st Hg st0 G0 Hrun.
    - by inversion Hrun; subst.
    - destruct (step Inline env st0 e) as [st1|] eqn:E; [|discriminate].
      apply (IH st Hg st1); [|exact Hrun].
      by eapply generating_means_request_step. }
  destruct (G Hg) as (f & r & Hin).
  apply list_elem_of_lookup in Hin as [i Hi]. exists i, f, r.
  split; [exact Hi|]. intros o Ho. simpl. rewrite Hi.
  destruct o as [|txt|]; [done| |]; simpl; eexists; by split.
Qed.

Lemma inline_indicator_has_request_in_flight_witness :
  exists st,
    run Inline (sample_env (Some (js "key"))) (mounted ∅ None)
      [StationClick EW18 EWL (js "2024-05-01"); ChangeFile (Some photo);
       Settle 0 Loaded] = Some st
    /\ isGeneratingCaption st = true
    /\ exists i file request,
         inFlight st !! i = Some (GenerateContent file request).
Proof.
  assert (Hr : run Inline (sample_env (Some (js "key"))) (mounted ∅ None)
                 [StationClick EW18 EWL (js "2024-05-01");
                  ChangeFile (Some photo); Settle 0 Loaded]
               = Some (mkApp ∅ (Some (EW18, EWL)) true false true
                         (Some (with_imageData (readAsDataURL photo)
                                  sample_record)) None
                         [GenerateContent photo
                            (caption_request photo (Some (EW18, EWL)))] [])).
  { vm_compute. reflexivity. }
  eexists. split; [exact Hr|]. split; [reflexivity|].
  destruct (inline_indicator_has_request_in_flight _ _ _ _ _ Hr eq_refl)
    as (i & f & r & Hi & _).
  exists i, f, r. exact Hi.
Defined.



(** X22.  A save writes under the code the record carries, not under the code of
    the station shown.  Opening a station whose stored record carries
    another code (a store read from a stored item may hold one) and saving
    writes that record under its own code and leaves the entry of the
    station shown as it was. *)
Theorem save_writes_under_the_record_code st station line today d :
  visitMap st !! code station = Some d ->
  visitMap (saveEntry (handleStationClick station line today st))
  = <[ stationCode d := d ]> (visitMap st)
  /\ visitMap (saveEntry (handleStationClick station line today st))
       !! code station = Some d
  /\ (stationCode d = code station ->
      visitMap (saveEntry (handleStationClick station line today st))
      = visitMap st).
Proof.
  intros Hl.
  assert (H : visitMap (saveEntry (handleStationClick station line today st))
              = <[ stationCode d := d ]> (visitMap st)).
  { unfold saveEntry, handleStationClick. simpl. by rewrite Hl. }
  split; [exact H|]. rewrite H. split.
  - rewrite lookup_insert. case_decide; [done | exact Hl].
  - intros Hc. rewrite Hc. by apply insert_id.
Qed.

Lemma save_writes_under_the_record_code_witness :
  let d := mkVisitLog (js "NS1") (js "2024-05-02") None None None None in
  let st := mounted {[ js "EW18" := d ]} None in
  visitMap st !! code EW18 = Some d
  /\ visitMap (saveEntry (handleStationClick EW18 EWL (js "2024-06-01") st))
       !! js "NS1" = Some d.
Proof.
  intros d st.
  assert (Hl : visitMap st !! code EW18 = Some d) by (vm_compute; reflexivity).
  split; [exact Hl|].
  rewrite (proj1 (save_writes_under_the_record_code st EW18 EWL
                    (js "2024-06-01") d Hl)).
  vm_compute. reflexivity.
Defined.
